(** * dockermap.map.client: the action executor of [MappingDockerClient]

    A shallow embedding of [src/dockermap/map/client.py].

    - Python values that flow through the module (keyword arguments,
      status values) are a small tagged union.  Names and keys, which the
      module compares, joins and splits, are strings of 8-bit characters.
      A status text, which it matches against a pattern and converts to an
      integer, is a sequence of Unicode code points.
    - Which characters [\d] matches and how long a numeral [int] converts
      is the interpreter's matter: its table of decimal digits and its
      bound on the length of numerals are parameters.
    - Dictionaries are finite maps.  The registry [self._maps], whose
      iteration order shows in what the module does, keeps its insertion
      order.  The dictionaries of keyword arguments are objects in a heap,
      referred to by their location, because the executor may work on the
      very dictionary an action carries.
    - The engine client, the container maps and the policy class are not
      part of the module.  The engine client is a class of fallible
      operations over an abstract engine state; every call the module
      makes on a client is appended to a trace.  The names and tuples
      taken from the policy package are parameters.
    - A method is a computation in a state monad with exceptions: the
      state holds the attributes of the orchestrator, the engine, the
      trace and the heap. *)

From Stdlib Require Import String Ascii List ZArith Bool Lia.
From Stdlib Require Import Decimal DecimalString DecimalPos DecimalN.
From stdpp Require Import base option list gmap strings fin_maps.

Local Open Scope Z_scope.

(** ** Python values *)

#[local] Set Warnings "-register-all".

Inductive Value : Type :=
| VNone
| VBool (b : bool)
| VInt (z : Z)
| VStr (s : string)
| VList (l : list Value).

Abbreviation Dict := (gmap string Value).

(** Truth value of an object, as [if x:] and [x or y] test it. *)
Definition truthy (v : Value) : bool :=
  match v with
  | VNone => false
  | VBool b => b
  | VInt z => negb (z =? 0)
  | VStr s => negb (String.eqb s "")
  | VList l => match l with [] => false | _ => true end
  end.

Definition str_truthy (s : string) : bool := negb (String.eqb s "").

(** ** Strings *)

(** [s.partition(sep)] for a one-character separator: the part before the
    first occurrence, the separator found (empty when absent), the rest. *)
Fixpoint partition (sep : ascii) (s : string) : string * string * string :=
  match s with
  | EmptyString => (EmptyString, EmptyString, EmptyString)
  | String a s' =>
      if Ascii.eqb a sep then (EmptyString, String sep EmptyString, s')
      else let '(h, m, t) := partition sep s' in (String a h, m, t)
  end.

(** [s[1:]] *)
Definition drop_first (s : string) : string :=
  match s with
  | EmptyString => EmptyString
  | String _ s' => s'
  end.

(** ** Exceptions *)

Inductive Exn : Type :=
| APIError (status_code : Z) (explanation : string)
| ValueError (msg : string)
| KeyError (key : string)
| TypeError (msg : string)
| AttributeError (msg : string)
| OtherError (msg : string).

Inductive Result (A : Type) : Type :=
| Ok (a : A)
| Raise (e : Exn).

Arguments Ok {A} a.
Arguments Raise {A} e.

(** ** Status texts *)

(** The status of a container is a text: a sequence of Unicode code
    points. *)
Definition text : Type := list N.

(** The text of a literal of the module. *)
Fixpoint text_of (s : string) : text :=
  match s with
  | EmptyString => []
  | String a s' => N_of_ascii a :: text_of s'
  end.

(** [s.startswith(p)] *)
Fixpoint startswith (s p : text) {struct p} : bool :=
  match p with
  | [] => true
  | a :: p' =>
      match s with
      | [] => false
      | b :: s' => (a =? b)%N && startswith s' p'
      end
  end.

(** ** The interpreter

    Two matters of the interpreter show in what the module makes of a
    status text.
    - [to_decimal c] is the digit the code point [c] stands for, when
      [\d] matches [c]; [int] reads a character that [\d] matches as that
      digit.  For a pattern compiled from a [str], [\d] matches the
      decimal digits of Unicode (Python 3); for a [unicode] pattern
      compiled without [re.UNICODE], only [0] to [9] (Python 2).  Below
      128 it matches [0] to [9] in every case.
    - [int_max_str_digits] is the greatest number of digits of a numeral
      that [int] converts, 0 standing for no bound
      ([sys.get_int_max_str_digits()]; an interpreter without it has no
      bound).  The interpreter accepts no bound under 640 digits. *)
Class Interpreter : Type := {
  to_decimal : N -> option N;
  int_max_str_digits : N;
  to_decimal_lt_10 : forall c d, to_decimal c = Some d -> (d < 10)%N;
  to_decimal_ascii : forall c, (c < 128)%N ->
    to_decimal c = if (48 <=? c)%N && (c <=? 57)%N then Some (c - 48)%N else None;
  int_max_str_digits_threshold :
    int_max_str_digits = 0%N \/ (640 <= int_max_str_digits)%N;
}.

Section StatusTexts.
Context `{interpreter : Interpreter}.

(** ** The pattern [EXITED_REGEX] *)

(** [\d] *)
Definition is_digit (c : N) : bool :=
  match to_decimal c with
  | Some _ => true
  | None => false
  end.

Fixpoint all_digits (s : text) : bool :=
  match s with
  | [] => true
  | c :: s' => is_digit c && all_digits s'
  end.

(** The fragment of regular expressions the module uses: literal
    characters and one capturing group [(\d+)]. *)
Inductive re_item : Type :=
| RChar (c : N)
| RDigits.

Definition re_literal (s : string) : list re_item := map RChar (text_of s).

(** ['Exited \((\d+)\)'] *)
Definition EXITED_REGEX : list re_item :=
  re_literal "Exited (" ++ [RDigits] ++ re_literal ")".

(** Greedy [\d+] with backtracking: the longest run of digits after which
    the rest of the pattern [k] matches. *)
Fixpoint match_digits (k : text -> option (option text)) (s : text)
  : option text :=
  match s with
  | [] => None
  | c :: s' =>
      if is_digit c then
        match match_digits k s' with
        | Some ds => Some (c :: ds)
        | None => match k s' with
                  | Some _ => Some [c]
                  | None => None
                  end
        end
      else None
  end.

(** [pattern.match(s)]: anchored at the start of [s]; [Some g] on a match,
    [g] being the text of group 1 when the group took part. *)
Fixpoint re_match (p : list re_item) (s : text) : option (option text) :=
  match p with
  | [] => Some None
  | RChar a :: p' =>
      match s with
      | [] => None
      | b :: s' => if (a =? b)%N then re_match p' s' else None
      end
  | RDigits :: p' =>
      match match_digits (re_match p') s with
      | Some ds => Some (Some ds)
      | None => None
      end
  end.

Definition exited_pattern_match (s : text) : option (option text) :=
  re_match EXITED_REGEX s.

(** ** [int] *)

Definition digit_value (c : N) : Z :=
  match to_decimal c with
  | Some d => Z.of_N d
  | None => 0
  end.

Fixpoint int_acc (acc : Z) (s : text) : Z :=
  match s with
  | [] => acc
  | c :: s' => int_acc (10 * acc + digit_value c) s'
  end.

(** [int(s)] for a text of decimal digits, the only texts the module
    converts: the number the digits denote, in base ten; [ValueError] when
    the interpreter bounds the length of numerals and [s] is longer. *)
Definition int (s : text) : Result Z :=
  if (0 <? int_max_str_digits)%N && (int_max_str_digits <? N.of_nat (length s))%N
  then Raise (ValueError "Exceeds the limit for integer string conversion")
  else Ok (int_acc 0 s).

(** [int(exit_match.group(1))] *)
Definition int_group (g : option text) : Result Z :=
  match g with
  | Some s => int s
  | None => Raise (TypeError "int() argument must be a string or a number")
  end.

(** The body of the loop over the records of [_get_status]: the status
    value [cs] computed from [container['Status']]. *)
Definition classify_status (c_status : text) : Result Value :=
  if bool_decide (c_status = text_of "") then Ok (VBool false)
  else if startswith c_status (text_of "Up") then Ok (VBool true)
  else
    match exited_pattern_match c_status with
    | Some g =>
        match int_group g with
        | Ok n => Ok (VInt n)
        | Raise e => Raise e
        end
    | None => Ok VNone
    end.

End StatusTexts.

(** [str(n)] for a natural number: its decimal numeral. *)
Definition decimal (n : N) : text :=
  text_of (NilEmpty.string_of_uint (N.to_uint n)).


(** ** A state monad with exceptions

    A computation takes the state, returns a value or raises, and leaves a
    state behind in both cases: what was done before a [raise] stays done. *)

Definition M (S A : Type) : Type := S -> Result A * S.

Definition ret {S A : Type} (a : A) : M S A := fun st => (Ok a, st).

Definition raise {S A : Type} (e : Exn) : M S A := fun st => (Raise e, st).

(** A computation that does not touch the state. *)
Definition lift {S A : Type} (r : Result A) : M S A := fun st => (r, st).

Definition bind {S A B : Type} (m : M S A) (k : A -> M S B) : M S B :=
  fun st =>
    match m st with
    | (Ok a, st') => k a st'
    | (Raise e, st') => (Raise e, st')
    end.

Declare Scope py_scope.
Delimit Scope py_scope with py.

Notation "x <- m ;; k" := (bind m (fun x => k))
  (at level 100, m at next level, right associativity) : py_scope.
Notation "m ;; k" := (bind m (fun _ => k))
  (at level 100, right associativity) : py_scope.

Local Open Scope py_scope.

(** [try: body finally: fin]: [fin] runs on both exits of [body]; an
    exception of [fin] replaces the pending one. *)
Definition try_finally {S A : Type} (body : M S A) (fin : M S unit) : M S A :=
  fun st =>
    match body st with
    | (r, st') =>
        match fin st' with
        | (Ok _, st'') => (r, st'')
        | (Raise e, st'') => (Raise e, st'')
        end
    end.

(** [try: body except APIError as e: handler], the handler receiving
    [e.response.status_code] and [e.explanation]. *)
Definition try_except_APIError {S A : Type} (body : M S A)
    (handler : Z -> string -> M S A) : M S A :=
  fun st =>
    match body st with
    | (Raise (APIError code expl), st') => handler code expl st'
    | other => other
    end.

(** [[f(x) for x in l]] *)
Fixpoint mapM {S A B : Type} (f : A -> M S B) (l : list A) : M S (list B) :=
  match l with
  | [] => ret []
  | x :: l' => y <- f x ;; ys <- mapM f l' ;; ret (y :: ys)
  end.

(** [any(l)] *)
Definition any (l : list bool) : bool := existsb (fun b => b) l.

(** [x in l] for a tuple of strings. *)
Definition str_in (x : string) (l : list string) : bool :=
  existsb (String.eqb x) l.

(** [a or b] on optional strings: [a] when it is neither [None] nor empty. *)
Definition str_or (a b : option string) : option string :=
  match a with
  | Some s => if str_truthy s then a else b
  | None => b
  end.

(** ['{0}'.format(x)] for an optional string. *)
Definition format_opt (x : option string) : string :=
  match x with
  | Some s => s
  | None => "None"
  end.

(** ** Dictionaries that keep insertion order ([self._maps]) *)

Fixpoint dict_set {V : Type} (k : string) (v : V) (d : list (string * V))
  : list (string * V) :=
  match d with
  | [] => [(k, v)]
  | (k', v') :: d' =>
      if String.eqb k k' then (k, v) :: d' else (k', v') :: dict_set k v d'
  end.

Fixpoint dict_get {V : Type} (d : list (string * V)) (k : option string)
  : option V :=
  match d, k with
  | (k', v) :: d', Some key =>
      if String.eqb key k' then Some v else dict_get d' k
  | _, _ => None
  end.

Definition dict_values {V : Type} (d : list (string * V)) : list V :=
  map snd d.

(** [dict(pairs)]: later pairs overwrite earlier ones. *)
Definition dict_of_pairs (l : list (string * Value)) : gmap string Value :=
  fold_left (fun m p => <[p.1 := p.2]> m) l ∅.

(** ** Collaborators: container maps, the engine client, the policy class *)

(** Modelled from the spec: the configuration of a container, of which the
    module reads [attaches], [persistent] and [instances]. *)
Record ContainerConfiguration : Type := {
  attaches : list string;
  persistent : bool;
  instances : list string;
}.

(** Modelled from the spec: a container map, which has a [name] and
    iterates as pairs of a container name and its configuration. *)
Record ContainerMap : Type := {
  name : string;
  containers : list (string * ContainerConfiguration);
}.

(** Engine clients are told apart by an identifier. *)
Definition Client : Type := nat.

(** [MapClient = namedtuple('MapClient', ('container_map', 'client'))] *)
Record MapClient : Type := {
  container_map : ContainerMap;
  client : Client;
}.

(** One record of [client.containers(all=True)]. *)
Record ContainerInfo : Type := {
  Status : text;
  Names : list string;
}.

(** [logging.ERROR] *)
Definition ERROR : Z := 40.

(** The calls the module makes on an engine client, with their arguments. *)
Inductive Call : Type :=
| call_containers (c : Client)
| call_create_container (c : Client) (image : Value) (nm : option string) (kwargs : Dict)
| call_start (c : Client) (container : Value) (kwargs : Dict)
| call_stop (c : Client) (container : Value) (kwargs : Dict)
| call_remove_container (c : Client) (container : Value) (kwargs : Dict)
| call_wait (c : Client) (container : Value)
| call_get_image_tags (c : Client)
| call_import_image (c : Client) (image tag : string)
| call_push_container_logs (c : Client) (container : Value)
| call_push_log (c : Client) (msg : string) (level : option Z).



(** The engine client ([DockerClientWrapper], not part of this module): each
    operation answers from the engine's state, may change it, and may
    raise. *)
Class Engine : Type := {
  World : Type;
  eng_containers : Client -> World -> Result (list ContainerInfo) * World;
  eng_create_container :
    Client -> Value -> option string -> Dict -> World -> Result Dict * World;
  eng_start : Client -> Value -> Dict -> World -> Result unit * World;
  eng_stop : Client -> Value -> Dict -> World -> Result unit * World;
  eng_remove_container : Client -> Value -> Dict -> World -> Result unit * World;
  eng_wait : Client -> Value -> World -> Result unit * World;
  eng_get_image_tags : Client -> World -> Result (gset string) * World;
  eng_import_image : Client -> string -> string -> World -> Result unit * World;
  eng_push_container_logs : Client -> Value -> World -> Result unit * World;
}.

(** What the module takes from the policy package and from [shortcuts]:
    the naming function [cname] of the policy class, the action tuples
    [policy.ACTIONS_*], [get_user_group], and the text [str.format] gives
    for a value. *)
Class Imports : Type := {
  cname : option string -> string -> option string -> string;
  ACTIONS_CREATE : list string;
  ACTIONS_START : list string;
  ACTIONS_PREPARE : list string;
  ACTIONS_STOP : list string;
  ACTIONS_REMOVE : list string;
  get_user_group : Value -> string;
  format_value : Value -> string;
}.

(** Modelled from the spec: the policy object, which this module only
    constructs from the container maps and whose [status] attribute it
    assigns. *)
Record Policy : Type := {
  policy_maps : list ContainerMap;
  status : option (gmap string Value);
}.

(** An action as the policy issues it: [(action, map_name, container,
    kwargs)], [kwargs] being a reference to a dictionary object or [None]. *)
Abbreviation ContainerAction := (string * option string * string * option nat)%type.

(** ** The state: the orchestrator's attributes and its surroundings *)

Section Model.
Context `{engine : Engine} `{imports : Imports} `{interpreter : Interpreter}.

Record State : Type := {
  world : World;                       (* the engine *)
  trace : list Call;                   (* calls made on engine clients so far *)
  heap : list Dict;                    (* dictionary objects, by identity *)
  policies : list Policy;              (* policy objects, by identity *)
  _default_map : option string;
  _maps : list (string * MapClient);
  _image_tags : gmap (option string) (gset string);
  _policy : option nat;
}.

Definition set_world (w : World) (st : State) : State :=
  {| world := w; trace := trace st; heap := heap st; policies := policies st;
     _default_map := _default_map st; _maps := _maps st;
     _image_tags := _image_tags st; _policy := _policy st |}.

Definition set_trace (t : list Call) (st : State) : State :=
  {| world := world st; trace := t; heap := heap st; policies := policies st;
     _default_map := _default_map st; _maps := _maps st;
     _image_tags := _image_tags st; _policy := _policy st |}.

Definition set_heap (h : list Dict) (st : State) : State :=
  {| world := world st; trace := trace st; heap := h; policies := policies st;
     _default_map := _default_map st; _maps := _maps st;
     _image_tags := _image_tags st; _policy := _policy st |}.

Definition set_policies (p : list Policy) (st : State) : State :=
  {| world := world st; trace := trace st; heap := heap st; policies := p;
     _default_map := _default_map st; _maps := _maps st;
     _image_tags := _image_tags st; _policy := _policy st |}.

Definition set_default_map (d : option string) (st : State) : State :=
  {| world := world st; trace := trace st; heap := heap st; policies := policies st;
     _default_map := d; _maps := _maps st;
     _image_tags := _image_tags st; _policy := _policy st |}.

Definition set_image_tags (t : gmap (option string) (gset string)) (st : State) : State :=
  {| world := world st; trace := trace st; heap := heap st; policies := policies st;
     _default_map := _default_map st; _maps := _maps st;
     _image_tags := t; _policy := _policy st |}.

Definition set_policy (p : option nat) (st : State) : State :=
  {| world := world st; trace := trace st; heap := heap st; policies := policies st;
     _default_map := _default_map st; _maps := _maps st;
     _image_tags := _image_tags st; _policy := p |}.

Abbreviation Py := (M State).

Definition get {A : Type} (f : State -> A) : Py A := fun st => (Ok (f st), st).

Definition modify (f : State -> State) : Py unit := fun st => (Ok tt, f st).

(** ** Calls on an engine client: recorded, then answered by the engine *)

Definition engine_call {A : Type} (ev : Call) (op : World -> Result A * World)
  : Py A :=
  fun st =>
    let '(r, w) := op (world st) in
    (r, set_world w (set_trace (trace st ++ [ev]) st)).

Definition client_containers (c : Client) : Py (list ContainerInfo) :=
  engine_call (call_containers c) (eng_containers c).

Definition client_create_container (c : Client) (image : Value)
    (nm : option string) (kwargs : Dict) : Py Dict :=
  engine_call (call_create_container c image nm kwargs)
              (eng_create_container c image nm kwargs).

Definition client_start (c : Client) (container : Value) (kwargs : Dict) : Py unit :=
  engine_call (call_start c container kwargs) (eng_start c container kwargs).

Definition client_stop (c : Client) (container : Value) (kwargs : Dict) : Py unit :=
  engine_call (call_stop c container kwargs) (eng_stop c container kwargs).

Definition client_remove_container (c : Client) (container : Value) (kwargs : Dict)
  : Py unit :=
  engine_call (call_remove_container c container kwargs)
              (eng_remove_container c container kwargs).

Definition client_wait (c : Client) (container : Value) : Py unit :=
  engine_call (call_wait c container) (eng_wait c container).

Definition client_get_image_tags (c : Client) : Py (gset string) :=
  engine_call (call_get_image_tags c) (eng_get_image_tags c).

Definition client_import_image (c : Client) (image tag : string) : Py unit :=
  engine_call (call_import_image c image tag) (eng_import_image c image tag).

Definition client_push_container_logs (c : Client) (container : Value) : Py unit :=
  engine_call (call_push_container_logs c container)
              (eng_push_container_logs c container).

(** Modelled from the spec: [push_log] hands a message to the caller's
    log sink; it does not reach the engine. *)
Definition client_push_log (c : Client) (msg : string) (level : option Z) : Py unit :=
  modify (fun st => set_trace (trace st ++ [call_push_log c msg level]) st).

(** ** Dictionary objects *)

(** The dictionary a reference designates (references come from
    allocation, so they are in range; out of range reads as empty). *)
Definition deref (l : nat) (st : State) : Dict := default ∅ (heap st !! l).

(** [{}] and [d.copy()]: a new object. *)
Definition new_dict (d : Dict) : Py nat :=
  fun st => (Ok (length (heap st)), set_heap (heap st ++ [d]) st).

(** [a.update(c)]: in place, the keys of [c] win. *)
Definition dict_update (l : nat) (c : Dict) : Py unit :=
  modify (fun st => set_heap (<[l := c ∪ deref l st]> (heap st)) st).

(** [a.pop(key)]: in place; [KeyError] when the key is absent. *)
Definition dict_pop (l : nat) (key : string) : Py Value :=
  fun st =>
    match deref l st !! key with
    | Some v => (Ok v, set_heap (<[l := delete key (deref l st)]> (heap st)) st)
    | None => (Raise (KeyError key), st)
    end.

(** [d[key]] on a dictionary value. *)
Definition getitem (d : Dict) (key : string) : Py Value :=
  match d !! key with
  | Some v => ret v
  | None => raise (KeyError key)
  end.

(** Truth value of [kwargs]: neither [None] nor an empty dictionary. *)
Definition kwargs_truthy (kwargs : option nat) (st : State) : bool :=
  match kwargs with
  | Some l => negb (bool_decide (deref l st = ∅))
  | None => false
  end.

(** ** The module's functions *)

(** [_run_and_dispose] *)
Definition _run_and_dispose (client : Client) (image entrypoint command user
    volumes_from : Value) : Py unit :=
  created <- client_create_container client image None
               (<["entrypoint" := entrypoint]>
                  (<["command" := command]> (<["user" := user]> ∅))) ;;
  tmp_container <- getitem created "Id" ;;
  try_finally
    (client_start client tmp_container (<["volumes_from" := volumes_from]> ∅) ;;
     client_wait client tmp_container ;;
     client_push_container_logs client tmp_container)
    (client_remove_container client tmp_container ∅).

(** [_adjust_permissions] *)
Definition _adjust_permissions (client : Client) (image : Value)
    (container_name : string) (path user permissions : Value) : Py unit :=
  if negb (truthy user) && negb (truthy permissions) then ret tt
  else
    (if truthy user then
       client_push_log client
         ("Adjusting user for container '" +:+ container_name +:+ "' to '"
            +:+ format_value user +:+ "'.") None ;;
       _run_and_dispose client image VNone
         (VList [VStr "chown"; VStr "-R"; VStr (get_user_group user); path])
         (VStr "root") (VList [VStr container_name])
     else ret tt) ;;
    (if truthy permissions then
       client_push_log client
         ("Adjusting permissions for container '" +:+ container_name +:+ "' to '"
            +:+ format_value permissions +:+ "'.") None ;;
       _run_and_dispose client image VNone
         (VList [VStr "chmod"; VStr "-R"; permissions; path])
         (VStr "root") (VList [VStr container_name])
     else ret tt).

(** [__init__]; the argument [container_maps] is a single map, a list of
    pairs, or something else. *)
Inductive ContainerMapsArg : Type :=
| SingleMap (c_map : ContainerMap)
| MapList (l : list (ContainerMap * Client))
| Unexpected.

Definition __init__ (w : World) (container_maps : ContainerMapsArg)
    (docker_client : Client) : Result State :=
  let mk d m :=
    {| world := w; trace := []; heap := []; policies := [];
       _default_map := d; _maps := m; _image_tags := ∅; _policy := None |} in
  match container_maps with
  | SingleMap c_map =>
      Ok (mk (Some (name c_map))
             [(name c_map, {| container_map := c_map; client := docker_client |})])
  | MapList l =>
      Ok (mk None
             (fold_left
                (fun d '(c_map, client) =>
                   dict_set (name c_map)
                     {| container_map := c_map; client := client |} d)
                l []))
  | Unexpected =>
      Raise (ValueError "Unexpected type of container_maps argument")
  end.

(** [_get_status]: the pairs the generator yields for one record of the
    engine's answer, its status value computed first. *)
Definition status_entries (container : ContainerInfo)
  : Result (list (string * Value)) :=
  match classify_status (Status container) with
  | Ok cs => Ok (map (fun nm => (drop_first nm, cs)) (Names container))
  | Raise e => Raise e
  end.

(** The pairs for the records of one answer, record by record; an error
    ends the generator. *)
Fixpoint status_pairs (map_containers : list ContainerInfo)
  : Result (list (string * Value)) :=
  match map_containers with
  | [] => Ok []
  | container :: rest =>
      match status_entries container with
      | Ok entries =>
          match status_pairs rest with
          | Ok more => Ok (entries ++ more)
          | Raise e => Raise e
          end
      | Raise e => Raise e
      end
  end.

(** The generator [_extract_status], map by map, then [dict]. *)
Fixpoint _extract_status (maps : list MapClient) : Py (list (string * Value)) :=
  match maps with
  | [] => ret []
  | mc :: maps' =>
      map_containers <- client_containers (client mc) ;;
      entries <- lift (status_pairs map_containers) ;;
      rest <- _extract_status maps' ;;
      ret (entries ++ rest)
  end.

Definition _get_status : Py (gmap string Value) :=
  maps <- get (fun st => dict_values (_maps st)) ;;
  entries <- _extract_status maps ;;
  ret (dict_of_pairs entries).

(** [_get_client] *)
Definition _get_client (map_name : option string) : Py Client :=
  c_map <- get (fun st => dict_get (_maps st) map_name) ;;
  match c_map with
  | None =>
      raise (ValueError ("No map found with name '" +:+ format_opt map_name +:+ "'."))
  | Some mc => ret (client mc)
  end.

(** [_get_image_tags] *)
Definition _get_image_tags (map_name : option string) (force : bool)
  : Py (gset string) :=
  tags <- get (fun st => if negb force then _image_tags st !! map_name else None) ;;
  match tags with
  | Some tags => ret tags
  | None =>
      client <- _get_client map_name ;;
      tags <- client_get_image_tags client ;;
      modify (fun st => set_image_tags (<[map_name := tags]> (_image_tags st)) st) ;;
      ret tags
  end.

(** [_check_image], the inner function of [_ensure_images]; [image_name]
    is rebound by the first assignment. *)
Definition _check_image (map_client : Client) (map_images : gset string)
    (image_name : Value) : Py bool :=
  match image_name with
  | VStr s =>
      let '(image_name, _, tag) := partition ":" s in
      let full_name :=
        if str_truthy tag then image_name
        else image_name +:+ ":" +:+ "latest" in
      if bool_decide (full_name ∈ map_images) then ret false
      else
        client_import_image map_client image_name
          (if str_truthy tag then tag else "latest") ;;
        ret true
  | _ => raise (AttributeError "partition")
  end.

(** [_ensure_images] *)
Definition _ensure_images (map_name : option string) (images : list Value)
  : Py unit :=
  map_client <- _get_client map_name ;;
  map_images <- _get_image_tags map_name false ;;
  new_images <- mapM (_check_image map_client map_images) images ;;
  if any new_images then
    _get_image_tags map_name true ;; ret tt
  else ret tt.

(** Modelled from the spec: the policy class is constructible from the
    container maps; [self._policy_class(maps)] makes a new policy object,
    whose status is not set yet. *)
Definition new_policy (maps : list ContainerMap) : Py nat :=
  fun st =>
    (Ok (length (policies st)),
     set_policies (policies st ++ [{| policy_maps := maps; status := None |}]) st).

(** [policy.status = s] on the object at [p]. *)
Definition set_status (p : nat) (s : gmap string Value) : Py unit :=
  modify (fun st =>
    set_policies
      (alter (fun pol => {| policy_maps := policy_maps pol; status := Some s |})
             p (policies st)) st).

(** Lines 136-137: the policy is constructed when there is none yet (a
    policy instance is an ordinary object, so [not self._policy] holds
    exactly when the attribute is [None]). *)
Definition ensure_policy : Py unit :=
  cur <- get _policy ;;
  match cur with
  | None =>
      maps <- get (fun st => map container_map (dict_values (_maps st))) ;;
      p <- new_policy maps ;;
      modify (set_policy (Some p))
  | Some _ => ret tt
  end.

(** [get_policy]: the status is computed first, then assigned to the
    [status] attribute of the object [self._policy] refers to. *)
Definition get_policy : Py nat :=
  ensure_policy ;;
  s <- _get_status ;;
  cur <- get _policy ;;
  match cur with
  | Some p => set_status p s ;; ret p
  | None => raise (AttributeError "status")
  end.

(** [run_action_list], lines 151-156: the dictionary [a_kwargs] that the
    call of the action receives.  It is a new object when the caller
    gave overrides for this action or when [kwargs] is empty or [None],
    and the dictionary of the action itself otherwise. *)
Definition dict_truthy (c : option Dict) : bool :=
  match c with
  | Some d => negb (bool_decide (d = ∅))
  | None => false
  end.

Definition merge_kwargs (apply_kwargs : option (gmap string Dict))
    (action : string) (kwargs : option nat) : Py nat :=
  match apply_kwargs with
  | None => raise (AttributeError "get")
  | Some overrides =>
      let c_kwargs := overrides !! action in
      has_kwargs <- get (kwargs_truthy kwargs) ;;
      if dict_truthy c_kwargs then
        a_kwargs <- (match kwargs with
                     | Some l =>
                         if has_kwargs then (d <- get (deref l) ;; new_dict d)
                         else new_dict ∅
                     | None => new_dict ∅
                     end) ;;
        dict_update a_kwargs (default ∅ c_kwargs) ;;
        ret a_kwargs
      else
        match kwargs with
        | Some l => if has_kwargs then ret l else new_dict ∅
        | None => new_dict ∅
        end
  end.

(** Binding [**a_kwargs] to the parameters [path, user, permissions] of
    [_adjust_permissions]. *)
Definition bind_adjust_kwargs (kw : Dict) : Py (Value * Value * Value) :=
  match kw !! "path", kw !! "user", kw !! "permissions" with
  | Some path, Some user, Some permissions =>
      if bool_decide (size kw = 3%nat) then ret (path, user, permissions)
      else raise (TypeError "_adjust_permissions() got an unexpected keyword argument")
  | _, _, _ => raise (TypeError "_adjust_permissions() arguments")
  end.

(** The handler of [except APIError as e] in the stop and remove branches. *)
Definition on_api_error (client : Client) (what container : string)
    (raise_on_error : bool) (status_code : Z) (explanation : string) : Py unit :=
  if negb (status_code =? 404) then
    client_push_log client
      ("Failed to " +:+ what +:+ " container '" +:+ container +:+ "': "
         +:+ explanation) (Some ERROR) ;;
    if raise_on_error then raise (APIError status_code explanation)
    else ret tt
  else ret tt.

(** The chain of [if action in ...: / elif ...: / else:]: the branch an
    action takes. *)
Inductive Branch : Type :=
| branch_create
| branch_start
| branch_prepare
| branch_stop
| branch_remove
| branch_else.

Definition branch_of (action : string) : Branch :=
  if str_in action ACTIONS_CREATE then branch_create
  else if str_in action ACTIONS_START then branch_start
  else if str_in action ACTIONS_PREPARE then branch_prepare
  else if str_in action ACTIONS_STOP then branch_stop
  else if str_in action ACTIONS_REMOVE then branch_remove
  else branch_else.

(** Lines 157-186: the call the action stands for, with the dictionary
    [a_kwargs]; the value is what the turn of the loop yields, if
    anything. *)
Definition dispatch_action (client : Client) (action : string)
    (map_name : option string) (container : string) (a_kwargs : nat)
    (raise_on_error : bool) : Py (option Dict) :=
  match branch_of action with
  | branch_create =>
      image <- dict_pop a_kwargs "image" ;;
      _ensure_images map_name [image] ;;
      kw <- get (deref a_kwargs) ;;
      created <- client_create_container client image (Some container) kw ;;
      ret (Some created)
  | branch_start =>
      kw <- get (deref a_kwargs) ;;
      client_start client (VStr container) kw ;;
      ret None
  | branch_prepare =>
      image <- dict_pop a_kwargs "image" ;;
      client_wait client (VStr container) ;;
      kw <- get (deref a_kwargs) ;;
      args <- bind_adjust_kwargs kw ;;
      let '(path, user, permissions) := args in
      _adjust_permissions client image container path user permissions ;;
      ret None
  | branch_stop =>
      kw <- get (deref a_kwargs) ;;
      try_except_APIError (client_stop client (VStr container) kw)
        (on_api_error client "stop" container raise_on_error) ;;
      ret None
  | branch_remove =>
      kw <- get (deref a_kwargs) ;;
      try_except_APIError (client_remove_container client (VStr container) kw)
        (on_api_error client "remove" container raise_on_error) ;;
      ret None
  | branch_else =>
      raise (ValueError ("Unrecognized action " +:+ action +:+ "."))
  end.

(** One turn of the loop of [run_action_list]. *)
Definition run_action (a : ContainerAction)
    (apply_kwargs : option (gmap string Dict)) (raise_on_error : bool)
  : Py (option Dict) :=
  let '(action, map_name, container, kwargs) := a in
  client <- _get_client map_name ;;
  a_kwargs <- merge_kwargs apply_kwargs action kwargs ;;
  dispatch_action client action map_name container a_kwargs raise_on_error.

(** [run_action_list] run to its end: the values yielded, how the
    generator ended, and the state left. *)
Fixpoint run_action_list (actions : list ContainerAction)
    (apply_kwargs : option (gmap string Dict)) (raise_on_error : bool)
    (st : State) : list Dict * Result unit * State :=
  match actions with
  | [] => ([], Ok tt, st)
  | a :: rest =>
      match run_action a apply_kwargs raise_on_error st with
      | (Ok y, st') =>
          let '(ys, r, st'') := run_action_list rest apply_kwargs raise_on_error st' in
          (match y with Some d => d :: ys | None => ys end, r, st'')
      | (Raise e, st') => ([], Raise e, st')
      end
  end.

(** [list(run_action_list(...))], as the public operations consume it. *)
Definition list_run_action_list (actions : list ContainerAction)
    (apply_kwargs : option (gmap string Dict)) (raise_on_error : bool)
  : Py (list Dict) :=
  fun st =>
    match run_action_list actions apply_kwargs raise_on_error st with
    | (ys, Ok _, st') => (Ok ys, st')
    | (_, Raise e, st') => (Raise e, st')
    end.

(** The name of the container in [wait] and [wait_and_remove]:
    [cname(map_name or self._default_map, container, instance)]. *)
Definition resolve_cname (container : string) (instance map_name : option string)
  : Py string :=
  default_map <- get _default_map ;;
  ret (cname (str_or map_name default_map) container instance).

(** [wait] *)
Definition wait (container : string) (instance map_name : option string)
    (log : bool) : Py unit :=
  client <- _get_client map_name ;;
  c_name <- resolve_cname container instance map_name ;;
  client_wait client (VStr c_name) ;;
  if log then client_push_container_logs client (VStr c_name) else ret tt.

(** [wait_and_remove] *)
Definition wait_and_remove (container : string) (instance map_name : option string)
    (log : bool) (kwargs : Dict) : Py unit :=
  client <- _get_client map_name ;;
  c_name <- resolve_cname container instance map_name ;;
  wait container instance map_name log ;;
  client_remove_container client (VStr c_name) kwargs.

(** [refresh_names] *)
Definition refresh_names : Py unit := modify (set_image_tags ∅).

(** The setter of the property [default_map]. *)
Definition default_map_setter (value : option string) : Py unit :=
  modify (set_default_map value).

(** [list_persistent_containers]: the generator [_container_names] as
    nested loops over an output list, each [yield] appending to it. *)
Definition yield {A : Type} (out : list A) (x : A) : list A := out ++ [x].

Definition names_of_container (c_map : ContainerMap) (out : list string)
    (item : string * ContainerConfiguration) : list string :=
  let '(container, config) := item in
  let out :=
    fold_left (fun out ac => yield out (cname (Some (name c_map)) ac None))
              (attaches config) out in
  if persistent config then
    match instances config with
    | _ :: _ =>
        fold_left
          (fun out ci => yield out (cname (Some (name c_map)) container (Some ci)))
          (instances config) out
    | [] => yield out (cname (Some (name c_map)) container None)
    end
  else out.

Definition _container_names (maps : list MapClient) : list string :=
  fold_left
    (fun out mc =>
       fold_left (names_of_container (container_map mc))
                 (containers (container_map mc)) out)
    maps [].

Definition list_persistent_containers (map_name : option string)
  : Py (list string) :=
  maps <- (match map_name with
           | Some m =>
               if str_truthy m then
                 found <- get (fun st => dict_get (_maps st) map_name) ;;
                 match found with
                 | Some mc => ret [mc]
                 | None => raise (KeyError m)
                 end
               else get (fun st => dict_values (_maps st))
           | None => get (fun st => dict_values (_maps st))
           end) ;;
  ret (_container_names maps).

(** The names to list for one configuration, in the words of the
    specification: one for every attached alias; and, when the
    configuration is marked persistent, one for every declared instance,
    or one for the default instance when no instance is declared. *)
Definition persistent_names (map_name : string)
    (item : string * ContainerConfiguration) : list string :=
  map (fun ac => cname (Some map_name) ac None) (attaches item.2) ++
  (if persistent item.2 then
     if decide (instances item.2 = []) then [cname (Some map_name) item.1 None]
     else map (fun ci => cname (Some map_name) item.1 (Some ci)) (instances item.2)
   else []).

Definition persistent_names_of_map (c_map : ContainerMap) : list string :=
  flat_map (persistent_names (name c_map)) (containers c_map).

(** How many names that is. *)
Definition persistent_count (config : ContainerConfiguration) : nat :=
  (length (attaches config) +
   (if persistent config then Nat.max 1 (length (instances config)) else 0))%nat.

(** ** The life of an orchestrator

    What can happen to an orchestrator after [__init__]: calls of its
    methods, and steps of its surroundings (the engine changes, the
    policy allocates the dictionaries of the actions it issues). *)
Inductive Op : Type :=
| op_get_policy
| op_run_action_list (actions : list ContainerAction)
    (apply_kwargs : option (gmap string Dict)) (raise_on_error : bool)
| op_ensure_images (map_name : option string) (images : list Value)
| op_get_image_tags (map_name : option string) (force : bool)
| op_wait (container : string) (instance map_name : option string) (log : bool)
| op_wait_and_remove (container : string) (instance map_name : option string)
    (log : bool) (kwargs : Dict)
| op_refresh_names
| op_default_map_setter (value : option string)
| op_list_persistent_containers (map_name : option string)
| op_surroundings (f : World -> World) (g : list Dict -> list Dict).

Definition exec (o : Op) (st : State) : State :=
  match o with
  | op_get_policy => (get_policy st).2
  | op_run_action_list actions apply_kwargs raise_on_error =>
      (run_action_list actions apply_kwargs raise_on_error st).2
  | op_ensure_images map_name images => (_ensure_images map_name images st).2
  | op_get_image_tags map_name force => (_get_image_tags map_name force st).2
  | op_wait container instance map_name log =>
      (wait container instance map_name log st).2
  | op_wait_and_remove container instance map_name log kwargs =>
      (wait_and_remove container instance map_name log kwargs st).2
  | op_refresh_names => (refresh_names st).2
  | op_default_map_setter value => (default_map_setter value st).2
  | op_list_persistent_containers map_name =>
      (list_persistent_containers map_name st).2
  | op_surroundings f g => set_world (f (world st)) (set_heap (g (heap st)) st)
  end.

Definition lifetime (ops : list Op) (st : State) : State :=
  fold_left (fun st o => exec o st) ops st.

(** The two branches with an [except APIError] clause, and what differs
    between them. *)
Inductive Teardown : Type := td_stop | td_remove.

Definition td_branch (t : Teardown) : Branch :=
  match t with td_stop => branch_stop | td_remove => branch_remove end.

Definition td_word (t : Teardown) : string :=
  match t with td_stop => "stop" | td_remove => "remove" end.

Definition td_call (t : Teardown) : Client -> Value -> Dict -> Call :=
  match t with td_stop => call_stop | td_remove => call_remove_container end.

Definition td_engine (t : Teardown)
  : Client -> Value -> Dict -> World -> Result unit * World :=
  match t with td_stop => eng_stop | td_remove => eng_remove_container end.



End Model.

(** ** Frames

    [preserves R m]: the state [m] leaves is related by [R] to the state
    it started from, whether it returns or raises. *)
Definition preserves {S A : Type} (R : relation S) (m : M S A) : Prop :=
  forall st, R st (m st).2.

Section FrameRelations.
Context `{engine : Engine}.

(** The registry, the reference to the policy and the policy objects are
    what they were. *)
Definition same_policy (st st' : State) : Prop :=
  _maps st' = _maps st /\ _policy st' = _policy st /\ policies st' = policies st.

(** The dictionary objects other than the one at [l0] are what they
    were. *)
Definition heap_but (l0 : nat) (st st' : State) : Prop :=
  forall l, l <> l0 -> heap st' !! l = heap st !! l.

(** There is no policy object and no reference to one, or there is one
    object, made from the maps [maps], and [_policy] refers to it. *)
Definition policy_inv (maps : list (string * MapClient)) (st : State) : Prop :=
  _maps st = maps /\
  match _policy st with
  | None => policies st = []
  | Some p =>
      p = 0%nat /\
      exists s, policies st =
                  [{| policy_maps := map container_map (dict_values maps);
                      status := s |}]
  end.
End FrameRelations.

(** ** A simulated engine and policy naming, for examples

    The engine keeps a set of image tags; importing adds to it.  Faults
    are switched on by fields of its state. *)

Record Sim : Type := {
  sim_tags : gset string;
  sim_fail_start : bool;
  sim_bad_image : string;
  sim_stop_code : option Z;
  sim_remove_code : option Z;
}.

Definition sim_fail (code : option Z) (what : string) (w : Sim) : Result unit * Sim :=
  match code with
  | Some n => (Raise (APIError n what), w)
  | None => (Ok tt, w)
  end.

Definition sim_import (image tag : string) (w : Sim) : Result unit * Sim :=
  if String.eqb image (sim_bad_image w) then (Raise (APIError 500 "import failed"), w)
  else (Ok tt,
        {| sim_tags := {[image +:+ ":" +:+ tag]} ∪ sim_tags w;
           sim_fail_start := sim_fail_start w;
           sim_bad_image := sim_bad_image w;
           sim_stop_code := sim_stop_code w;
           sim_remove_code := sim_remove_code w |}).

Definition sim_engine : Engine := {|
  World := Sim;
  eng_containers := fun _ w =>
    (Ok [{| Status := text_of "Up 2 hours"; Names := ["/m.web"] |};
         {| Status := text_of "Exited (3) 1 hour ago"; Names := ["/m.job"; "/job"] |}], w);
  eng_create_container := fun _ _ _ _ w => (Ok (<["Id" := VStr "c0ffee"]> ∅), w);
  eng_start := fun _ _ _ w =>
    if sim_fail_start w then (Raise (APIError 500 "start failed"), w) else (Ok tt, w);
  eng_stop := fun _ _ _ w => sim_fail (sim_stop_code w) "stop failed" w;
  eng_remove_container := fun _ _ _ w => sim_fail (sim_remove_code w) "remove failed" w;
  eng_wait := fun _ _ w => (Ok tt, w);
  eng_get_image_tags := fun _ w => (Ok (sim_tags w), w);
  eng_import_image := fun _ image tag w => sim_import image tag w;
  eng_push_container_logs := fun _ _ w => (Ok tt, w);
|}.

Definition sim_imports : Imports := {|
  cname := fun map_name container instance =>
    match instance with
    | Some i => format_opt map_name +:+ "." +:+ container +:+ "." +:+ i
    | None => format_opt map_name +:+ "." +:+ container
    end;
  ACTIONS_CREATE := ["create"];
  ACTIONS_START := ["start"];
  ACTIONS_PREPARE := ["prepare"];
  ACTIONS_STOP := ["stop"];
  ACTIONS_REMOVE := ["remove"];
  get_user_group := fun v =>
    match v with VStr s => s +:+ ":" +:+ s | _ => "" end;
  format_value := fun v => match v with VStr s => s | _ => "" end;
|}.

Definition sim_world (tags : gset string) : Sim :=
  {| sim_tags := tags; sim_fail_start := false; sim_bad_image := "";
     sim_stop_code := None; sim_remove_code := None |}.

Definition web_config : ContainerConfiguration :=
  {| attaches := ["sock"]; persistent := true; instances := ["a"; "b"] |}.

Definition job_config : ContainerConfiguration :=
  {| attaches := []; persistent := false; instances := [] |}.

Definition sim_map : ContainerMap :=
  {| name := "m"; containers := [("web", web_config); ("job", job_config)] |}.

(** The orchestrator built by [MappingDockerClient(sim_map, client 0)] on
    the engine state [w]. *)
Definition sim_state (w : Sim) : @State sim_engine :=
  {| world := (w : @World sim_engine); trace := []; heap := []; policies := [];
     _default_map := Some "m";
     _maps := [("m", {| container_map := sim_map; client := 0%nat |})];
     _image_tags := ∅; _policy := None |}.

(** The same orchestrator with the tags [tags] already cached for the map. *)
Definition sim_cached (w : Sim) (tags : gset string) : @State sim_engine :=
  set_image_tags (<[Some "m" := tags]> ∅) (sim_state w).


(** An engine on which stopping a container fails with the given status
    code. *)
Definition sim_stop_fails (code : Z) : Sim :=
  {| sim_tags := ∅; sim_fail_start := false; sim_bad_image := "";
     sim_stop_code := Some code; sim_remove_code := None |}.

(** An engine on which starting a container fails. *)
Definition sim_start_fails : Sim :=
  {| sim_tags := ∅; sim_fail_start := true; sim_bad_image := "";
     sim_stop_code := None; sim_remove_code := None |}.

(** ** Definitions for the further properties *)

Section Further.
Context `{engine : Engine} `{imports : Imports} `{interpreter : Interpreter}.

(** What [_get_status] asks the engine: [containers(all=True)] on the
    client of one map after the other, until one call raises.  The calls
    made, the records answered (or the error), and the engine afterwards. *)
Fixpoint query_containers (maps : list MapClient) (w : World)
  : list Call * Result (list ContainerInfo) * World :=
  match maps with
  | [] => ([], Ok [], w)
  | mc :: maps' =>
      match eng_containers (client mc) w with
      | (Ok cs, w1) =>
          let '(calls, r, w2) := query_containers maps' w1 in
          (call_containers (client mc) :: calls,
           match r with Ok cs' => Ok (cs ++ cs') | Raise e => Raise e end,
           w2)
      | (Raise e, w1) => ([call_containers (client mc)], Raise e, w1)
      end
  end.

(** Whether the turn of the loop for an action yields a value: only the
    create branch has a [yield]. *)
Definition yields_value (a : ContainerAction) : bool :=
  match branch_of a.1.1.1 with
  | branch_create => true
  | _ => false
  end.

(** Every map with cached image tags is a registered map. *)
Definition cache_registered (st : State) : Prop :=
  forall k, is_Some (_image_tags st !! k) -> is_Some (dict_get (_maps st) k).

(** The registry is what it was, and an entry of the cache that was not
    there before belongs to a registered map. *)
Definition cache_step (st st' : State) : Prop :=
  _maps st' = _maps st /\
  forall k, is_Some (_image_tags st' !! k) ->
            is_Some (_image_tags st !! k) \/ is_Some (dict_get (_maps st) k).

(** The default map is what it was. *)
Definition same_default_map (st st' : State) : Prop :=
  _default_map st' = _default_map st.

Definition is_default_map_setter (o : Op) : bool :=
  match o with
  | op_default_map_setter _ => true
  | _ => false
  end.

(** The dictionary objects are what they were. *)
Definition same_dicts (st st' : State) : Prop := heap st' = heap st.


End Further.

(** Two maps of the same name with different clients, and a third map. *)
Definition db_map : ContainerMap :=
  {| name := "db"; containers := [("pg", web_config)] |}.

Definition sim_pairs : list (ContainerMap * Client) :=
  [(sim_map, 0%nat); (db_map, 1%nat); (sim_map, 2%nat)].

(** An orchestrator whose heap holds the dictionary of one create action,
    with the image [ubuntu] available and cached. *)
Definition sim_with_action : @State sim_engine :=
  set_heap [ <["image" := VStr "ubuntu"]> {["user" := VStr "root"]} ]
    (sim_cached (sim_world {["ubuntu:latest"]}) {["ubuntu:latest"]}).

Definition sim_override : gmap string Dict :=
  {["create" := {["user" := VStr "app"]}]}.

(** An engine that answers [containers] from a table, client by client,
    and [wait] with a fixed outcome; it counts the calls it has answered. *)
Definition listing_engine (answers : Client -> Result (list ContainerInfo))
    (waiting : Result unit) : Engine := {|
  World := nat;
  eng_containers := fun c w => (answers c, S w);
  eng_create_container := fun _ _ _ _ w => (Ok ∅, w);
  eng_start := fun _ _ _ w => (Ok tt, w);
  eng_stop := fun _ _ _ w => (Ok tt, w);
  eng_remove_container := fun _ _ _ w => (Ok tt, w);
  eng_wait := fun _ _ w => (waiting, S w);
  eng_get_image_tags := fun _ w => (Ok ∅, w);
  eng_import_image := fun _ _ _ w => (Ok tt, w);
  eng_push_container_logs := fun _ _ w => (Ok tt, S w);
|}.

(** An orchestrator for three maps with the clients 0, 1 and 2. *)
Definition listing_state (answers : Client -> Result (list ContainerInfo))
    (waiting : Result unit) : @State (listing_engine answers waiting) :=
  {| world := (0%nat : @World (listing_engine answers waiting));
     trace := []; heap := []; policies := [];
     _default_map := None;
     _maps := [("m", {| container_map := sim_map; client := 0%nat |});
               ("db", {| container_map := db_map; client := 1%nat |});
               ("x", {| container_map := db_map; client := 2%nat |})];
     _image_tags := ∅; _policy := None |}.

(** The second client is out of reach. *)
Definition second_fails (c : Client) : Result (list ContainerInfo) :=
  match c with
  | 1%nat => Raise (APIError 500 "unreachable")
  | _ => Ok [{| Status := text_of "Up 1 hour"; Names := ["/c"] |}]
  end.

(** A numeral of 4301 digits. *)
Definition long_numeral : text := repeat 49%N 4301.

(** The first client reports an exit code of 4301 digits. *)
Definition long_code (c : Client) : Result (list ContainerInfo) :=
  match c with
  | 0%nat =>
      Ok [{| Status := text_of "Exited (" ++ long_numeral ++ text_of ")";
             Names := ["/c"] |}]
  | _ => Ok []
  end.

(** ** Two interpreters *)

Definition ascii_decimal (c : N) : option N :=
  if (48 <=? c)%N && (c <=? 57)%N then Some (c - 48)%N else None.

(** The code points of the digit zero in the scripts of Unicode 14.0 other
    than [0] itself; the digits one to nine of a script follow its zero. *)
Definition other_zeros : list N :=
  [1632; 1776; 1984; 2406; 2534; 2662; 2790; 2918; 3046; 3174; 3302;
   3430; 3558; 3664; 3792; 3872; 4160; 4240; 6112; 6160; 6470; 6608; 6784;
   6800; 6992; 7088; 7232; 7248; 42528; 43216; 43264; 43472; 43504; 43600;
   44016; 65296; 66720; 68912; 69734; 69872; 69942; 70096; 70384; 70736;
   70864; 71248; 71360; 71472; 71904; 72016; 72784; 73040; 73120; 92768;
   92864; 93008; 120782; 120792; 120802; 120812; 120822; 123200; 123632;
   125264; 130032]%N.

Definition unicode_zeros : list N := 48%N :: other_zeros.

Definition digit_from (c z : N) : bool := (z <=? c)%N && (c <? z + 10)%N.

Definition unicode_decimal (c : N) : option N :=
  match List.find (digit_from c) unicode_zeros with
  | Some z => Some (c - z)%N
  | None => None
  end.

(** Python 2.7: [\d] of a pattern compiled without [re.UNICODE] is [0] to
    [9], and [int] converts numerals of any length. *)
Definition python2 : Interpreter.
Proof.
  refine {| to_decimal := ascii_decimal; int_max_str_digits := 0 |}.
  - intros c d. unfold ascii_decimal. destruct (_ && _) eqn:H; [|discriminate].
    intros [= <-]. apply andb_true_iff in H as [H1 H2].
    apply N.leb_le in H1, H2. lia.
  - reflexivity.
  - by left.
Defined.

(** Python 3.11: [\d] of a [str] pattern is the decimal digits of Unicode,
    and [int] converts numerals of up to 4300 digits. *)
Definition python3 : Interpreter.
Proof.
  refine {| to_decimal := unicode_decimal; int_max_str_digits := 4300 |}.
  - intros c d. unfold unicode_decimal.
    destruct (List.find _ _) as [z|] eqn:H; [|discriminate].
    intros [= <-]. apply List.find_some in H as [_ H].
    apply andb_true_iff in H as [H1 H2].
    apply N.leb_le in H1. apply N.ltb_lt in H2. lia.
  - intros c Hc.
    assert (Habove : forall l,
              forallb (fun z => (c <? z)%N) l = true ->
              List.find (digit_from c) l = None).
    { induction l as [|z l IH]; [reflexivity|]. cbn [forallb List.find].
      intros H. apply andb_true_iff in H as [Hz Hl]. apply N.ltb_lt in Hz.
      unfold digit_from at 1.
      replace (z <=? c)%N with false by (symmetry; apply N.leb_gt; exact Hz).
      exact (IH Hl). }
    unfold unicode_decimal, unicode_zeros. cbn [List.find].
    unfold digit_from at 1.
    replace (c <? 48 + 10)%N with (c <=? 57)%N
      by (destruct (N.leb_spec c 57), (N.ltb_spec c (48 + 10)); lia).
    destruct (_ && _); [reflexivity|].
    rewrite Habove; [reflexivity|].
    apply forallb_forall. intros z Hz. apply N.ltb_lt.
    assert (H : forallb (fun z => (128 <=? z)%N) other_zeros = true)
      by (vm_compute; reflexivity).
    pose proof (proj1 (forallb_forall _ _) H z Hz) as H'.
    apply N.leb_le in H'. lia.
  - right. apply N.leb_le. reflexivity.
Defined.
(** * Properties *)

(** ** Facts about texts and the pattern *)

Lemma text_of_app (a b : string) : text_of (a +:+ b) = text_of a ++ text_of b.
Proof. induction a as [|c a IH]; simpl; [reflexivity|]. by rewrite IH. Qed.

Lemma startswith_app (p r : text) : startswith (p ++ r) p = true.
Proof.
  induction p as [|a p IH]; simpl; [reflexivity|].
  rewrite N.eqb_refl. exact IH.
Qed.

Section Pattern.
Context `{interpreter : Interpreter}.

Lemma is_digit_ascii (c : N) :
  (c < 128)%N -> is_digit c = (48 <=? c)%N && (c <=? 57)%N.
Proof.
  intros Hc. unfold is_digit. rewrite (to_decimal_ascii c Hc).
  by destruct (_ && _).
Qed.

Lemma re_literal_app (lit : string) (r : text) (p : list re_item) :
  re_match (re_literal lit ++ p) (text_of lit ++ r) = re_match p r.
Proof.
  unfold re_literal. induction (text_of lit) as [|a l IH]; simpl; [reflexivity|].
  rewrite N.eqb_refl. exact IH.
Qed.

Lemma re_literal_inv (lit : string) (p : list re_item) (s : text) g :
  re_match (re_literal lit ++ p) s = Some g ->
  exists r, s = text_of lit ++ r /\ re_match p r = Some g.
Proof.
  unfold re_literal. revert s.
  induction (text_of lit) as [|a l IH]; intros s H; simpl in *.
  - exists s. by split.
  - destruct s as [|b s]; [discriminate|].
    destruct (N.eqb_spec a b) as [<-|Hab]; [|discriminate].
    destruct (IH _ H) as (r & -> & Hr). exists r. by split.
Qed.

Section MatchDigits.
Variable k : text -> option (option text).
Variable close : N.
Hypothesis close_not_digit : is_digit close = false.
Hypothesis k_spec : forall s, is_Some (k s) <-> exists r, s = close :: r.

Lemma match_digits_sound (s ds : text) :
  match_digits k s = Some ds ->
  ds <> [] /\ all_digits ds = true /\ exists r, s = ds ++ close :: r.
Proof.
  revert ds. induction s as [|a s IH]; intros ds H; simpl in H; [discriminate|].
  destruct (is_digit a) eqn:Ha; [|discriminate].
  destruct (match_digits k s) as [ds'|] eqn:Hm.
  - injection H as <-. destruct (IH _ eq_refl) as (_ & Hd & r & ->).
    split; [discriminate|]. split; [simpl; by rewrite Ha, Hd|].
    exists r. reflexivity.
  - destruct (k s) as [g|] eqn:Hk; [|discriminate]. injection H as <-.
    split; [discriminate|]. split; [simpl; by rewrite Ha|].
    destruct (proj1 (k_spec s)) as [r ->]; [by rewrite Hk|].
    exists r. reflexivity.
Qed.

Lemma match_digits_complete (ds r : text) :
  ds <> [] -> all_digits ds = true ->
  match_digits k (ds ++ close :: r) = Some ds.
Proof.
  induction ds as [|a ds IH]; intros Hne Hd; [done|].
  simpl in Hd. apply andb_true_iff in Hd as [Ha Hd].
  simpl. rewrite Ha.
  destruct ds as [|b ds].
  - simpl. rewrite close_not_digit.
    destruct (k (close :: r)) as [g|] eqn:Hk; [reflexivity|].
    assert (Hs : is_Some (k (close :: r))) by (apply k_spec; eauto).
    rewrite Hk in Hs. by destruct Hs.
  - rewrite IH; [reflexivity | discriminate | exact Hd].
Qed.
End MatchDigits.

Lemma close_paren_spec (s : text) :
  is_Some (re_match (re_literal ")") s) <-> exists r, s = 41%N :: r.
Proof.
  destruct s as [|b s].
  - split; [intros [? H]; discriminate H | intros [? H]; discriminate H].
  - change (re_match (re_literal ")") (b :: s))
      with (if (41 =? b)%N then Some (@None text) else None).
    destruct (N.eqb_spec 41 b) as [<-|Hb].
    + split; eauto.
    + split; [intros [? H]; discriminate H|].
      intros [r Hr]. injection Hr as Hr _. by subst b.
Qed.

Lemma close_paren_not_digit : is_digit 41 = false.
Proof. by rewrite is_digit_ascii. Qed.

(** The pattern matches exactly the texts that start with [Exited (],
    a non-empty run of digits and [)]; group 1 is the run of digits. *)
Lemma exited_pattern_match_iff (s : text) (g : option text) :
  exited_pattern_match s = Some g <->
  exists ds rest,
    g = Some ds /\ ds <> [] /\ all_digits ds = true /\
    s = text_of "Exited (" ++ ds ++ text_of ")" ++ rest.
Proof.
  unfold exited_pattern_match, EXITED_REGEX. split.
  - intros H. apply re_literal_inv in H as (r & -> & H). simpl in H.
    destruct (match_digits _ r) as [ds|] eqn:Hm; [|discriminate].
    injection H as <-.
    eapply (match_digits_sound _ 41%N) in Hm as (Hne & Hd & r' & ->);
      [|apply close_paren_spec].
    exists ds, r'. by split_and!.
  - intros (ds & rest & -> & Hne & Hd & ->). rewrite re_literal_app.
    change (re_match ([RDigits] ++ re_literal ")") ?x) with
      (match match_digits (re_match (re_literal ")")) x with
       | Some g => Some (Some g) | None => None end).
    change (text_of ")" ++ rest) with (41%N :: rest).
    by rewrite (match_digits_complete _ 41%N close_paren_not_digit close_paren_spec).
Qed.

(** ** Decimal numerals *)

Lemma digit_value_ascii (c : N) :
  (48 <= c)%N -> (c <= 57)%N -> digit_value c = Z.of_N c - 48.
Proof.
  intros H1 H2. unfold digit_value. rewrite to_decimal_ascii by lia.
  rewrite (proj2 (N.leb_le _ _) H1), (proj2 (N.leb_le _ _) H2). simpl. lia.
Qed.

Lemma digit_value_range (c : N) : 0 <= digit_value c < 10.
Proof.
  unfold digit_value. destruct (to_decimal c) as [d|] eqn:Hd; [|lia].
  pose proof (to_decimal_lt_10 c d Hd). lia.
Qed.

Lemma int_acc_of_uint_acc (d : Decimal.uint) (acc : positive) :
  int_acc (Z.pos acc) (text_of (NilEmpty.string_of_uint d))
  = Z.pos (Pos.of_uint_acc d acc).
Proof.
  revert acc.
  induction d as [|d IH|d IH|d IH|d IH|d IH|d IH|d IH|d IH|d IH|d IH];
    intros acc; [reflexivity|..];
    cbn [NilEmpty.string_of_uint text_of int_acc Pos.of_uint_acc];
    match goal with
    | |- int_acc (_ + digit_value ?c) _ = _ =>
        let n := eval vm_compute in c in
        change c with n; rewrite (digit_value_ascii n) by lia
    end;
    match goal with
    | |- int_acc ?z _ = _ =>
        match goal with
        | |- _ = Z.pos (Pos.of_uint_acc _ ?q) =>
            replace z with (Z.pos q) by lia
        end
    end; apply IH.
Qed.

Lemma int_acc_string_of_uint (d : Decimal.uint) :
  int_acc 0 (text_of (NilEmpty.string_of_uint d)) = Z.of_N (Pos.of_uint d).
Proof.
  induction d as [|d IH|d IH|d IH|d IH|d IH|d IH|d IH|d IH|d IH|d IH];
    [reflexivity | ..];
    cbn [NilEmpty.string_of_uint text_of int_acc Pos.of_uint];
    match goal with
    | |- int_acc (_ + digit_value ?c) _ = _ =>
        let n := eval vm_compute in c in
        change c with n; rewrite (digit_value_ascii n) by lia
    end;
    [exact IH|..];
    match goal with
    | |- int_acc ?z _ = Z.of_N (N.pos (Pos.of_uint_acc _ ?q)) =>
        change z with (Z.pos q)
    end; apply int_acc_of_uint_acc.
Qed.

(** The digits of the numeral of [n] denote [n]. *)
Lemma int_acc_decimal (n : N) : int_acc 0 (decimal n) = Z.of_N n.
Proof.
  unfold decimal. rewrite int_acc_string_of_uint.
  f_equal. apply (DecimalN.Unsigned.of_to n).
Qed.

Lemma all_digits_string_of_uint (d : Decimal.uint) :
  all_digits (text_of (NilEmpty.string_of_uint d)) = true.
Proof.
  induction d; cbn [NilEmpty.string_of_uint text_of all_digits]; [reflexivity|..];
    (rewrite is_digit_ascii by (vm_compute; reflexivity)); exact IHd.
Qed.

Lemma decimal_digits (n : N) : decimal n <> [] /\ all_digits (decimal n) = true.
Proof.
  split; [|apply all_digits_string_of_uint].
  unfold decimal. destruct n as [|p]; [discriminate|].
  simpl. pose proof (DecimalPos.Unsigned.to_uint_nonnil p) as Hp.
  destruct (Pos.to_uint p); [done|discriminate..].
Qed.

Lemma int_acc_nonneg (s : text) (acc : Z) : 0 <= acc -> 0 <= int_acc acc s.
Proof.
  revert acc. induction s as [|a s IH]; intros acc Hacc; simpl; [done|].
  apply IH. pose proof (digit_value_range a). lia.
Qed.

(** [int] converts a numeral unless the interpreter has a bound and the
    numeral is longer. *)
Lemma int_within (s : text) :
  int_max_str_digits = 0%N \/ (N.of_nat (length s) <= int_max_str_digits)%N ->
  int s = Ok (int_acc 0 s).
Proof.
  intros H. unfold int.
  destruct (N.ltb_spec 0 int_max_str_digits) as [H0|H0];
    destruct (N.ltb_spec int_max_str_digits (N.of_nat (length s))) as [H1|H1];
    try reflexivity.
  exfalso. lia.
Qed.

Lemma int_beyond (s : text) :
  (0 < int_max_str_digits)%N -> (int_max_str_digits < N.of_nat (length s))%N ->
  int s = Raise (ValueError "Exceeds the limit for integer string conversion").
Proof.
  intros H0 H1. unfold int.
  apply N.ltb_lt in H0 as ->. by apply N.ltb_lt in H1 as ->.
Qed.

(** ** Status classification *)

Lemma classify_status_exited (ds rest : text) :
  ds <> [] -> all_digits ds = true ->
  classify_status (text_of "Exited (" ++ ds ++ text_of ")" ++ rest)
  = match int ds with
    | Ok n => Ok (VInt n)
    | Raise e => Raise e
    end.
Proof.
  intros Hne Hd. unfold classify_status.
  rewrite bool_decide_eq_false_2 by discriminate.
  change (startswith (text_of "Exited (" ++ ds ++ text_of ")" ++ rest) (text_of "Up"))
    with false.
  cbv iota.
  assert (Hm : exited_pattern_match (text_of "Exited (" ++ ds ++ text_of ")" ++ rest)
               = Some (Some ds)).
  { apply exited_pattern_match_iff. exists ds, rest. by split_and!. }
  by rewrite Hm.
Qed.

(** What the classification does on a text that is neither empty nor
    starts with [Up]. *)
Lemma classify_status_other (s : text) :
  s <> [] -> startswith s (text_of "Up") = false ->
  (exists ds rest,
     ds <> [] /\ all_digits ds = true /\
     s = text_of "Exited (" ++ ds ++ text_of ")" ++ rest /\
     classify_status s
     = match int ds with Ok n => Ok (VInt n) | Raise e => Raise e end) \/
  ((forall ds rest, ds <> [] -> all_digits ds = true ->
      s <> text_of "Exited (" ++ ds ++ text_of ")" ++ rest) /\
   classify_status s = Ok VNone).
Proof.
  intros Hne Hup. unfold classify_status.
  rewrite bool_decide_eq_false_2 by done. rewrite Hup.
  destruct (exited_pattern_match s) as [g|] eqn:Hm.
  - apply exited_pattern_match_iff in Hm as (ds & rest & -> & Hds & Hd & Hs).
    left. exists ds, rest. by split_and!.
  - right. split; [|done]. intros ds rest Hds Hd ->.
    assert (H : exited_pattern_match
                  (text_of "Exited (" ++ ds ++ text_of ")" ++ rest) = Some (Some ds)).
    { apply exited_pattern_match_iff. exists ds, rest. by split_and!. }
    congruence.
Qed.

(** C4. The status value is a function of the status text alone.  The
    empty text gives [False]; a text starting with [Up] gives [True].  A
    text that starts with [Exited (<n>)], [<n>] a non-empty run of decimal
    digits (so in particular the numeral of any natural number), gives the
    integer the digits denote, e.g. 137 and 0; unless the interpreter
    bounds the length of numerals and the run is longer, when [ValueError]
    is raised.  Every other text, which includes a code with a sign,
    gives [None]. *)
Theorem classify_status_spec :
  classify_status (text_of "") = Ok (VBool false) /\
  (forall s, startswith s (text_of "Up") = true ->
     classify_status s = Ok (VBool true)) /\
  (forall ds rest, ds <> [] -> all_digits ds = true ->
     let s := text_of "Exited (" ++ ds ++ text_of ")" ++ rest in
     (int_max_str_digits = 0%N \/ (N.of_nat (length ds) <= int_max_str_digits)%N ->
      classify_status s = Ok (VInt (int_acc 0 ds))) /\
     ((0 < int_max_str_digits)%N /\ (int_max_str_digits < N.of_nat (length ds))%N ->
      exists msg, classify_status s = Raise (ValueError msg))) /\
  (forall (n : N) rest,
     int_max_str_digits = 0%N \/
     (N.of_nat (length (decimal n)) <= int_max_str_digits)%N ->
     classify_status (text_of "Exited (" ++ decimal n ++ text_of ")" ++ rest)
     = Ok (VInt (Z.of_N n))) /\
  classify_status (text_of "Exited (137)") = Ok (VInt 137) /\
  classify_status (text_of "Exited (0)") = Ok (VInt 0) /\
  (forall s, s <> [] -> startswith s (text_of "Up") = false ->
     (forall ds rest, ds <> [] -> all_digits ds = true ->
        s <> text_of "Exited (" ++ ds ++ text_of ")" ++ rest) ->
     classify_status s = Ok VNone) /\
  (forall sign rest,
     sign = 45%N \/ sign = 43%N ->
     classify_status (text_of "Exited (" ++ sign :: rest) = Ok VNone).
Proof.
  assert (Hnum : forall (n : N) rest,
            int_max_str_digits = 0%N \/
            (N.of_nat (length (decimal n)) <= int_max_str_digits)%N ->
            classify_status (text_of "Exited (" ++ decimal n ++ text_of ")" ++ rest)
            = Ok (VInt (Z.of_N n))).
  { intros n rest Hb. destruct (decimal_digits n) as [Hne Hd].
    rewrite classify_status_exited by assumption.
    by rewrite int_within, int_acc_decimal. }
  assert (Hnone : forall s, s <> [] -> startswith s (text_of "Up") = false ->
            (forall ds rest, ds <> [] -> all_digits ds = true ->
               s <> text_of "Exited (" ++ ds ++ text_of ")" ++ rest) ->
            classify_status s = Ok VNone).
  { intros s Hne Hup Hno.
    destruct (classify_status_other s Hne Hup)
      as [(ds & rest & Hds & Hd & Hs & _)|[_ H]]; [|exact H].
    exfalso. exact (Hno ds rest Hds Hd Hs). }
  split; [reflexivity|].
  split.
  { intros s Hs. unfold classify_status. rewrite Hs.
    by destruct s. }
  split.
  { intros ds rest Hne Hd s. subst s. rewrite classify_status_exited by assumption.
    split.
    - intros Hb. by rewrite int_within.
    - intros [H0 H1]. rewrite int_beyond by assumption. eauto. }
  split; [exact Hnum|].
  split.
  { apply (Hnum 137%N []). destruct int_max_str_digits_threshold; [by left|right].
    change (N.of_nat (length (decimal 137))) with 3%N. lia. }
  split.
  { apply (Hnum 0%N []). destruct int_max_str_digits_threshold; [by left|right].
    change (N.of_nat (length (decimal 0))) with 1%N. lia. }
  split; [exact Hnone|].
  intros sign rest Hsign. apply Hnone; [discriminate | by destruct Hsign; subst | ].
  intros ds tl Hne Hd Heq.
  destruct ds as [|d ds]; [done|].
  injection Heq as ->. simpl in Hd. apply andb_true_iff in Hd as [Hd _].
  rewrite is_digit_ascii in Hd by (destruct Hsign; subst; done).
  destruct Hsign; subst; discriminate Hd.
Qed.

End Pattern.

(** C4, counterexample: -1 is an integer and the text [Exited (-1)] starts
    with [Exited (], the numeral of -1 and [)]; its status value is
    [None], not -1, whichever digits the interpreter takes. *)
Lemma classify_status_negative_code :
  classify_status (interpreter := python2) (text_of "Exited (-1)") = Ok VNone /\
  classify_status (interpreter := python3) (text_of "Exited (-1)") = Ok VNone /\
  classify_status (interpreter := python3) (text_of "Exited (-1)") <> Ok (VInt (-1)).
Proof. by vm_compute. Qed.

(** Digits of another script: under Python 3 the Arabic-Indic digits one,
    two, three are digits for [\d] and for [int]; under Python 2 they are
    not. *)
Example classify_status_arabic_indic :
  let s := text_of "Exited (" ++ [1633; 1634; 1635]%N ++ text_of ")" in
  classify_status (interpreter := python3) s = Ok (VInt 123) /\
  classify_status (interpreter := python2) s = Ok VNone.
Proof. by vm_compute. Qed.

(** A numeral of 4301 digits: Python 3.11 refuses to convert it. *)
Example classify_status_long_numeral :
  classify_status (interpreter := python3)
    (text_of "Exited (" ++ long_numeral ++ text_of ")")
  = Raise (ValueError "Exceeds the limit for integer string conversion").
Proof. by vm_compute. Qed.

(** C4 at concrete texts under Python 3.11: a running container, an exit
    status followed by more text, an exit status in Arabic-Indic digits, a
    numeral that is too long, and texts that fit no case. *)
Lemma classify_status_spec_witness :
  classify_status (interpreter := python3) (text_of "Up 3 hours") = Ok (VBool true) /\
  classify_status (interpreter := python3) (text_of "Exited (1) 2 minutes ago")
  = Ok (VInt 1) /\
  classify_status (interpreter := python3) (text_of "Exited (255)") = Ok (VInt 255) /\
  classify_status (interpreter := python3)
    (text_of "Exited (" ++ [1633; 1634; 1635]%N ++ text_of ")")
  = Ok (VInt 123) /\
  (exists msg,
     classify_status (interpreter := python3)
       (text_of "Exited (" ++ long_numeral ++ text_of ")")
     = Raise (ValueError msg)) /\
  classify_status (interpreter := python3) (text_of "Created") = Ok VNone /\
  classify_status (interpreter := python3) (text_of "Exited (-1)") = Ok VNone.
Proof.
  destruct (classify_status_spec (interpreter := python3))
    as (_ & Hup & Hex & Hn & _ & _ & Hnone & Hsign).
  split; [apply Hup; reflexivity|].
  split.
  { apply (Hex (text_of "1") (text_of " 2 minutes ago"));
      [discriminate | reflexivity | right; by vm_compute]. }
  split; [apply (Hn 255%N []); right; by vm_compute|].
  split.
  { apply (Hex [1633; 1634; 1635]%N []);
      [discriminate | reflexivity | right; by vm_compute]. }
  split.
  { apply (Hex long_numeral []); [discriminate | by vm_compute |].
    split; by vm_compute. }
  split.
  { apply Hnone; [discriminate | reflexivity |].
    intros ds rest _ _ Heq. discriminate Heq. }
  apply (Hsign 45%N (text_of "1)")). by left.
Defined.

(** ** The monad *)

Local Open Scope py_scope.

Section MonadFacts.
Context {S A B : Type}.

Lemma bind_Ok (m : M S A) (k : A -> M S B) st a st' :
  m st = (Ok a, st') -> bind m k st = k a st'.
Proof. unfold bind. by intros ->. Qed.

Lemma bind_Raise (m : M S A) (k : A -> M S B) st e st' :
  m st = (Raise e, st') -> bind m k st = (Raise e, st').
Proof. unfold bind. by intros ->. Qed.

Lemma bind_inv (m : M S A) (k : A -> M S B) st r st' :
  bind m k st = (r, st') ->
  (exists a st1, m st = (Ok a, st1) /\ k a st1 = (r, st')) \/
  (exists e, m st = (Raise e, st') /\ r = Raise e).
Proof.
  unfold bind. destruct (m st) as [[a|e] st1]; intros H.
  - left. eauto.
  - right. injection H as <- <-. eauto.
Qed.
End MonadFacts.

(** ** Images *)

Lemma partition_no_sep (sep : ascii) (s : string) :
  (forall h t, s <> h +:+ String sep t) ->
  partition sep s = (s, "", "").
Proof.
  induction s as [|a s IH]; intros Hno; simpl; [reflexivity|].
  destruct (Ascii.eqb_spec a sep) as [->|Hne].
  - exfalso. exact (Hno "" s eq_refl).
  - rewrite IH; [reflexivity|].
    intros h t ->. exact (Hno (String a h) t eq_refl).
Qed.

Lemma partition_sep (sep : ascii) (base tag : string) :
  (forall h t, base <> h +:+ String sep t) ->
  partition sep (base +:+ String sep tag) = (base, String sep "", tag).
Proof.
  induction base as [|a base IH]; intros Hno; simpl.
  - by rewrite Ascii.eqb_refl.
  - destruct (Ascii.eqb_spec a sep) as [->|Hne].
    + exfalso. exact (Hno "" base eq_refl).
    + rewrite IH; [reflexivity|].
      intros h t ->. exact (Hno (String a h) t eq_refl).
Qed.

Section Images.
Context `{engine : Engine} `{imports : Imports} `{interpreter : Interpreter}.

(** A reference without a tag is looked up as [name:latest] and imported
    with the tag [latest] when absent. *)
Lemma check_image_untagged (c : Client) (map_images : gset string)
    (s : string) (st : State) :
  (forall h t, s <> h +:+ String ":" t) ->
  _check_image c map_images (VStr s) st =
    if bool_decide (s +:+ ":latest" ∈ map_images) then (Ok false, st)
    else (client_import_image c s "latest" ;; ret true) st.
Proof.
  intros Hno. unfold _check_image. rewrite (partition_no_sep _ _ Hno).
  change (str_truthy "") with false. cbv iota.
  change (s +:+ ":" +:+ "latest") with (s +:+ ":latest").
  by case_bool_decide.
Qed.

(** A reference [base:tag] is looked up under [base] alone: the name
    compared with the cache has lost its tag. *)
Lemma check_image_tagged (c : Client) (map_images : gset string)
    (base tag : string) (st : State) :
  (forall h t, base <> h +:+ String ":" t) -> tag <> "" ->
  _check_image c map_images (VStr (base +:+ ":" +:+ tag)) st =
    if bool_decide (base ∈ map_images) then (Ok false, st)
    else (client_import_image c base tag ;; ret true) st.
Proof.
  intros Hno Htag. unfold _check_image.
  change (":" +:+ tag) with (String ":" tag).
  rewrite (partition_sep _ _ _ Hno).
  destruct tag as [|a tag]; [done|].
  change (str_truthy (String a tag)) with true. cbv iota.
  by case_bool_decide.
Qed.



Lemma get_client_eq (map_name : option string) (st : State) :
  _get_client map_name st =
    match dict_get (_maps st) map_name with
    | Some mc => (Ok (client mc), st)
    | None =>
        (Raise (ValueError ("No map found with name '" +:+ format_opt map_name +:+ "'.")),
         st)
    end.
Proof. unfold _get_client, bind, get. by destruct (dict_get _ _). Qed.

(** An access that does not find the entry, or is forced, asks the
    engine and stores what it answers. *)
Lemma get_image_tags_query (map_name : option string) (force : bool)
    (mc : MapClient) (st : State) :
  dict_get (_maps st) map_name = Some mc ->
  (if force then True else _image_tags st !! map_name = None) ->
  _get_image_tags map_name force st =
    let asked := set_trace (trace st ++ [call_get_image_tags (client mc)]) st in
    match eng_get_image_tags (client mc) (world st) with
    | (Ok tags, w) =>
        (Ok tags,
         set_image_tags (<[map_name := tags]> (_image_tags st)) (set_world w asked))
    | (Raise e, w) => (Raise e, set_world w asked)
    end.
Proof.
  intros Hmc Hmiss. unfold _get_image_tags.
  unfold bind at 1. unfold get at 1.
  assert (Hnone : (if negb force then _image_tags st !! map_name else None) = None).
  { destruct force; simpl; auto. }
  rewrite Hnone. unfold bind at 1. rewrite get_client_eq, Hmc.
  unfold bind, client_get_image_tags, engine_call, modify, ret.
  by destruct (eng_get_image_tags (client mc) (world st)) as [[tags|e] w].
Qed.

(** An access that finds the entry answers from the cache and asks
    nothing. *)
Lemma get_image_tags_cached (map_name : option string) (tags : gset string)
    (st : State) :
  _image_tags st !! map_name = Some tags ->
  _get_image_tags map_name false st = (Ok tags, st).
Proof. intros H. unfold _get_image_tags, bind, get. simpl. by rewrite H. Qed.

Lemma get_image_tags_maps (map_name : option string) (force : bool)
    (st : State) r st' :
  _get_image_tags map_name force st = (r, st') -> _maps st' = _maps st.
Proof.
  unfold _get_image_tags, bind, get.
  destruct (if negb force then _ else _); [by intros [= <- <-]|].
  rewrite get_client_eq. destruct (dict_get _ _); [|by intros [= <- <-]].
  unfold client_get_image_tags, engine_call, modify, ret.
  destruct (eng_get_image_tags _ _) as [[tags|e] w]; by intros [= <- <-].
Qed.


End Images.

(** ** Images: evaluation on the simulated engine *)

(** C1, at the input where the code departs from it: the reference
    [ubuntu:14.04] is in the cached set, and [_ensure_images] imports
    [ubuntu] with tag [14.04] all the same (and then refreshes the cache),
    because the name looked up in the cache is [ubuntu]. *)
Lemma ensure_images_imports_cached_tagged_reference :
  let st := sim_cached (sim_world {["ubuntu:14.04"]}) {["ubuntu:14.04"]} in
  _image_tags st !! Some "m" = Some {["ubuntu:14.04"]} /\
  let '(r, st') := _ensure_images (Some "m") [VStr "ubuntu:14.04"] st in
  r = Ok tt /\
  trace st' = [call_import_image 0%nat "ubuntu" "14.04"; call_get_image_tags 0%nat].
Proof. vm_compute. by split_and!. Qed.

(** Two missing images, both imported: one refresh for the batch, after
    the imports. *)
Example ensure_images_two_imports_one_refresh :
  trace (_ensure_images (Some "m") [VStr "a"; VStr "registry/c:1.0"]
           (sim_cached (sim_world ∅) ∅)).2
  = [call_import_image 0%nat "a" "latest";
     call_import_image 0%nat "registry/c" "1.0";
     call_get_image_tags 0%nat].
Proof. by vm_compute. Qed.


(** ** The cache of image tags and the direct operations *)

Section Cache.
Context `{engine : Engine} `{imports : Imports} `{interpreter : Interpreter}.

Lemma get_image_tags_other (m m' : option string) (force : bool)
    (st : State) r st' :
  _get_image_tags m' force st = (r, st') -> m' <> m ->
  _image_tags st' !! m = _image_tags st !! m.
Proof.
  unfold _get_image_tags, bind, get. intros H Hne.
  destruct (if negb force then _ else _); [by injection H as <- <-|].
  rewrite get_client_eq in H. destruct (dict_get _ _); [|by injection H as <- <-].
  unfold client_get_image_tags, engine_call, modify, ret in H.
  destruct (eng_get_image_tags _ _) as [[tags|e] w]; injection H as <- <-;
    simpl; [by rewrite lookup_insert_ne | done].
Qed.

Lemma accesses_other (m : option string) (others : list (option string * bool))
    (st : State) r st' :
  mapM (fun a => _get_image_tags a.1 a.2) others st = (r, st') ->
  m ∉ others.*1 ->
  _image_tags st' !! m = _image_tags st !! m /\ _maps st' = _maps st.
Proof.
  revert st r st'. induction others as [|[m' f] others IH]; intros st r st' H Hm.
  - by injection H as <- <-.
  - rewrite fmap_cons in Hm. apply not_elem_of_cons in Hm as [Hne Hm].
    cbn [mapM fst snd] in H.
    apply bind_inv in H as [(t & st1 & H1 & H)|(e & H1 & ->)].
    + apply bind_inv in H as [(ts & st2 & H2 & H)|(e & H2 & ->)].
      * injection H as <- <-. destruct (IH _ _ _ H2 Hm) as [-> ->].
        split; [by eapply get_image_tags_other | by eapply get_image_tags_maps].
      * destruct (IH _ _ _ H2 Hm) as [-> ->].
        split; [by eapply get_image_tags_other | by eapply get_image_tags_maps].
    + split; [by eapply get_image_tags_other | by eapply get_image_tags_maps].
Qed.

(** C10. [refresh_names] always succeeds and leaves the cache of image
    tags empty for every map, touching nothing else.  After it, the
    next access to the tags of any registered map, forced or not, also
    after accesses for other maps, queries the engine client of that map
    and stores the tags the query returns as the entry of that map (an
    error of the query is raised to the caller). *)
Theorem refresh_names_forces_query (map_name : option string) (mc : MapClient)
    (others : list (option string * bool)) (force : bool) (st : State) :
  dict_get (_maps st) map_name = Some mc ->
  map_name ∉ others.*1 ->
  refresh_names st = (Ok tt, set_image_tags ∅ st) /\
  (forall m, _image_tags (set_image_tags ∅ st) !! m = None) /\
  forall r1 st1,
    mapM (fun a => _get_image_tags a.1 a.2) others (set_image_tags ∅ st) = (r1, st1) ->
    _get_image_tags map_name force st1 =
      let asked := set_trace (trace st1 ++ [call_get_image_tags (client mc)]) st1 in
      match eng_get_image_tags (client mc) (world st1) with
      | (Ok tags, w) =>
          (Ok tags,
           set_image_tags (<[map_name := tags]> (_image_tags st1)) (set_world w asked))
      | (Raise e, w) => (Raise e, set_world w asked)
      end.
Proof.
  intros Hmc Hother. split; [reflexivity|]. split; [intros m; apply lookup_empty|].
  intros r1 st1 H1.
  destruct (accesses_other map_name _ _ _ _ H1 Hother) as [Hmiss Hmaps].
  apply get_image_tags_query.
  - by rewrite Hmaps.
  - destruct force; [done|]. rewrite Hmiss. simpl. apply lookup_empty.
Qed.

(** C5. With [map_name] omitted, [wait] and [wait_and_remove] look the
    engine client up under [None] and raise the error of an unknown map,
    whatever the default map is, without having called the engine; the
    name of the container, for its part, is computed from the default
    map. *)
Theorem wait_without_map_name_raises (container : string)
    (instance : option string) (log : bool) (kwargs : Dict) (st : State) :
  _get_client None st =
    (Raise (ValueError "No map found with name 'None'."), st) /\
  wait container instance None log st =
    (Raise (ValueError "No map found with name 'None'."), st) /\
  wait_and_remove container instance None log kwargs st =
    (Raise (ValueError "No map found with name 'None'."), st) /\
  resolve_cname container instance None st =
    (Ok (cname (_default_map st) container instance), st).
Proof.
  assert (Hc : _get_client None st =
               (Raise (ValueError "No map found with name 'None'."), st)).
  { rewrite get_client_eq.
    assert (Hn : forall d : list (string * MapClient), dict_get d None = None)
      by (by intros [|[]]).
    by rewrite Hn. }
  split; [exact Hc|].
  split; [unfold wait; by rewrite (bind_Raise _ _ _ _ _ Hc)|].
  split; [unfold wait_and_remove; by rewrite (bind_Raise _ _ _ _ _ Hc)|].
  reflexivity.
Qed.

(** With the name of a registered map given, [wait] does wait for the
    container of that map. *)
Lemma wait_named_map (container m : string) (instance : option string)
    (mc : MapClient) (st : State) :
  dict_get (_maps st) (Some m) = Some mc -> m <> "" ->
  trace (wait container instance (Some m) false st).2 =
    trace st ++ [call_wait (client mc) (VStr (cname (Some m) container instance))].
Proof.
  intros Hmc Hm. unfold wait. unfold bind at 1. rewrite get_client_eq, Hmc.
  unfold bind, resolve_cname, get, ret, client_wait, engine_call, bind. simpl.
  assert (Ht : str_truthy m = true) by (destruct m; [done|reflexivity]).
  rewrite Ht. by destruct (eng_wait _ _ _) as [[[]|e] w].
Qed.

End Cache.

(** C10 on the simulated engine: the tags are cached, [refresh_names]
    empties the cache, and the next access queries the engine again. *)
Lemma refresh_names_forces_query_witness :
  let st := sim_cached (sim_world {["ubuntu:latest"]}) {["ubuntu:latest"]} in
  trace (_get_image_tags (Some "m") false st).2 = [] /\
  trace (_get_image_tags (Some "m") false (refresh_names st).2).2
    = [call_get_image_tags 0%nat].
Proof.
  intros st. split; [reflexivity|].
  pose (mc := {| container_map := sim_map; client := 0%nat |}).
  destruct (refresh_names_forces_query (Some "m") mc [] false st)
    as (Hr & _ & Hq); [reflexivity | apply not_elem_of_nil |].
  rewrite Hr. cbn [snd].
  rewrite (Hq (Ok []) _ eq_refl). reflexivity.
Defined.

(** ** Frames: what a computation leaves alone *)

Section Preserves.
Context {S : Type} (R : relation S) `{!PreOrder R}.

Lemma preserves_ret {A : Type} (a : A) : preserves R (ret a).
Proof. intros st. reflexivity. Qed.

Lemma preserves_raise {A : Type} (e : Exn) : preserves R (@raise S A e).
Proof. intros st. reflexivity. Qed.

Lemma preserves_lift {A : Type} (r : Result A) : preserves R (@lift S A r).
Proof. intros st. reflexivity. Qed.

Lemma preserves_bind {A B : Type} (m : M S A) (k : A -> M S B) :
  preserves R m -> (forall a, preserves R (k a)) -> preserves R (bind m k).
Proof.
  intros Hm Hk st. unfold bind. specialize (Hm st).
  destruct (m st) as [[a|e] st1]; simpl in *; [|done].
  etrans; [exact Hm | apply Hk].
Qed.

Lemma preserves_try_finally {A : Type} (body : M S A) (fin : M S unit) :
  preserves R body -> preserves R fin -> preserves R (try_finally body fin).
Proof.
  intros Hb Hf st. unfold try_finally. specialize (Hb st).
  destruct (body st) as [r st1]. specialize (Hf st1).
  destruct (fin st1) as [[[]|e] st2]; simpl in *; by etrans.
Qed.

Lemma preserves_try_except {A : Type} (body : M S A) (h : Z -> string -> M S A) :
  preserves R body -> (forall code expl, preserves R (h code expl)) ->
  preserves R (try_except_APIError body h).
Proof.
  intros Hb Hh st. unfold try_except_APIError. specialize (Hb st).
  destruct (body st) as [[a|[]] st1]; simpl in *; try done.
  etrans; [exact Hb | apply Hh].
Qed.

Lemma preserves_mapM {A B : Type} (f : A -> M S B) (l : list A) :
  (forall a, preserves R (f a)) -> preserves R (mapM f l).
Proof.
  intros Hf. induction l as [|x l IH]; cbn [mapM]; [apply preserves_ret|].
  apply preserves_bind; [apply Hf|]. intros y.
  apply preserves_bind; [apply IH|]. intros ys. apply preserves_ret.
Qed.
End Preserves.

Section EngineCalls.
Context `{engine : Engine} (R : relation State) `{!PreOrder R}.
Hypothesis R_world : forall w st, R st (set_world w st).
Hypothesis R_trace : forall t st, R st (set_trace t st).

Lemma preserves_get {A : Type} (f : State -> A) : preserves R (get f).
Proof. intros st. reflexivity. Qed.

Lemma preserves_engine_call {A : Type} (ev : Call)
    (op : World -> Result A * World) : preserves R (engine_call ev op).
Proof.
  intros st. unfold engine_call. destruct (op (world st)) as [r w]. simpl.
  etrans; [apply (R_trace (trace st ++ [ev]))|apply R_world].
Qed.

Lemma preserves_push_log c msg level : preserves R (client_push_log c msg level).
Proof. intros st. apply R_trace. Qed.

Lemma preserves_getitem d key : preserves R (getitem d key).
Proof. unfold getitem. destruct (d !! key); [apply preserves_ret|apply preserves_raise]; done. Qed.
End EngineCalls.

Create HintDb frame discriminated.

#[global] Hint Resolve preserves_ret preserves_raise preserves_lift preserves_try_finally
  preserves_try_except preserves_mapM : frame.

(** Splits a goal [preserves R m] along the structure of [m]. *)
Ltac frame_step :=
  match goal with
  | |- forall _, _ => intros
  | |- PreOrder _ => typeclasses eauto
  | |- preserves _ (bind _ _) => apply preserves_bind
  | |- preserves _ (try_finally _ _) => apply preserves_try_finally
  | |- preserves _ (try_except_APIError _ _) => apply preserves_try_except
  | |- preserves _ (mapM _ _) => apply preserves_mapM
  | |- preserves _ (if ?b then _ else _) => destruct b
  | |- preserves _ (match ?x with _ => _ end) => destruct x
  | |- preserves _ (let '(_, _) := ?x in _) => destruct x
  | |- preserves _ _ =>
      first [ solve [eauto with frame]
            | apply preserves_engine_call; assumption ]
  end.

Ltac frame := repeat frame_step.

Section Frames.
Context `{engine : Engine} `{imports : Imports} `{interpreter : Interpreter}.

#[global] Instance same_policy_preorder : PreOrder same_policy.
Proof.
  split.
  - by intros st.
  - intros a b c (?&?&?) (?&?&?). unfold same_policy. by split_and!; etrans.
Qed.

Section Generic.
Context (R : relation State) `{!PreOrder R}.
Hypothesis R_world : forall w st, R st (set_world w st).
Hypothesis R_trace : forall t st, R st (set_trace t st).
Hypothesis R_image_tags : forall t st, R st (set_image_tags t st).

Hint Resolve preserves_get preserves_push_log preserves_getitem : frame.

Lemma preserves_run_and_dispose c image entrypoint command user volumes_from :
  preserves R (_run_and_dispose c image entrypoint command user volumes_from).
Proof.
  unfold _run_and_dispose. frame.
Qed.

Lemma preserves_adjust_permissions c image cn path user permissions :
  preserves R (_adjust_permissions c image cn path user permissions).
Proof.
  pose proof preserves_run_and_dispose.
  unfold _adjust_permissions. frame.
Qed.

Lemma preserves_get_client map_name : preserves R (_get_client map_name).
Proof. unfold _get_client. frame. Qed.

Lemma preserves_get_image_tags map_name force :
  preserves R (_get_image_tags map_name force).
Proof.
  pose proof preserves_get_client.
  unfold _get_image_tags. frame. intros st. apply R_image_tags.
Qed.

Lemma preserves_check_image c map_images v :
  preserves R (_check_image c map_images v).
Proof. unfold _check_image. frame. Qed.

Lemma preserves_ensure_images map_name images :
  preserves R (_ensure_images map_name images).
Proof.
  pose proof preserves_get_client. pose proof preserves_get_image_tags.
  pose proof preserves_check_image.
  unfold _ensure_images. frame.
Qed.

Lemma preserves_extract_status maps : preserves R (_extract_status maps).
Proof. induction maps; cbn [_extract_status]; frame. Qed.

Lemma preserves_get_status : preserves R _get_status.
Proof. pose proof preserves_extract_status. unfold _get_status. frame. Qed.

Lemma preserves_wait container instance map_name log :
  preserves R (wait container instance map_name log).
Proof.
  pose proof preserves_get_client. unfold wait, resolve_cname. frame.
Qed.

Lemma preserves_wait_and_remove container instance map_name log kwargs :
  preserves R (wait_and_remove container instance map_name log kwargs).
Proof.
  pose proof preserves_get_client. pose proof preserves_wait.
  unfold wait_and_remove, resolve_cname. frame.
Qed.

Lemma preserves_list_persistent_containers map_name :
  preserves R (list_persistent_containers map_name).
Proof. unfold list_persistent_containers. frame. Qed.
End Generic.

#[local] Hint Resolve preserves_get preserves_push_log preserves_getitem
  preserves_get_client preserves_ensure_images preserves_adjust_permissions
  preserves_get_image_tags preserves_wait preserves_wait_and_remove
  preserves_list_persistent_containers : frame.

Section WithHeap.
Context (R : relation State) `{!PreOrder R}.
Hypothesis R_world : forall w st, R st (set_world w st).
Hypothesis R_trace : forall t st, R st (set_trace t st).
Hypothesis R_image_tags : forall t st, R st (set_image_tags t st).
Hypothesis R_heap : forall h st, R st (set_heap h st).

Lemma preserves_new_dict d : preserves R (new_dict d).
Proof. intros st. apply R_heap. Qed.

Lemma preserves_dict_update l c : preserves R (dict_update l c).
Proof. intros st. apply R_heap. Qed.

Lemma preserves_dict_pop l key : preserves R (dict_pop l key).
Proof.
  intros st. unfold dict_pop. destruct (deref l st !! key); simpl;
    [apply R_heap | reflexivity].
Qed.

Hint Resolve preserves_new_dict preserves_dict_update preserves_dict_pop : frame.

Lemma preserves_merge_kwargs apply_kwargs action kwargs :
  preserves R (merge_kwargs apply_kwargs action kwargs).
Proof. unfold merge_kwargs. frame. Qed.

Lemma preserves_bind_adjust_kwargs kw : preserves R (bind_adjust_kwargs kw).
Proof. unfold bind_adjust_kwargs. frame. Qed.

Lemma preserves_on_api_error c what container roe code expl :
  preserves R (on_api_error c what container roe code expl).
Proof. unfold on_api_error. frame. Qed.

Hint Resolve preserves_merge_kwargs preserves_bind_adjust_kwargs
  preserves_on_api_error : frame.

Lemma preserves_run_action a apply_kwargs raise_on_error :
  preserves R (run_action a apply_kwargs raise_on_error).
Proof.
  destruct a as [[[action map_name] container] kwargs].
  unfold run_action, dispatch_action. frame.
Qed.

Lemma run_action_list_related actions apply_kwargs raise_on_error st :
  R st (run_action_list actions apply_kwargs raise_on_error st).2.
Proof.
  revert st. induction actions as [|a rest IH]; intros st; cbn [run_action_list].
  - reflexivity.
  - pose proof (preserves_run_action a apply_kwargs raise_on_error st) as Ha.
    destruct (run_action a apply_kwargs raise_on_error st) as [[y|e] st1];
      simpl in Ha; [|done].
    specialize (IH st1).
    destruct (run_action_list rest apply_kwargs raise_on_error st1) as [[ys r] st2].
    simpl in *. by etrans.
Qed.
End WithHeap.

End Frames.

(** ** The policy object *)

Section PolicyObject.
Context `{engine : Engine} `{imports : Imports} `{interpreter : Interpreter}.

Lemma same_policy_world w (st : State) : same_policy st (set_world w st).
Proof. done. Qed.
Lemma same_policy_trace t (st : State) : same_policy st (set_trace t st).
Proof. done. Qed.
Lemma same_policy_image_tags t (st : State) : same_policy st (set_image_tags t st).
Proof. done. Qed.
Lemma same_policy_heap h (st : State) : same_policy st (set_heap h st).
Proof. done. Qed.

(** Every step of an orchestrator's life other than [get_policy] leaves
    the registry, the policy reference and the policy objects alone. *)
Lemma exec_same_policy (o : Op) (st : State) :
  o <> op_get_policy -> same_policy st (exec o st).
Proof.
  destruct o; intros Ho; cbn [exec]; try done.
  - apply (run_action_list_related same_policy); done.
  - apply (preserves_ensure_images same_policy); done.
  - apply (preserves_get_image_tags same_policy); done.
  - apply (preserves_wait same_policy); done.
  - apply (preserves_wait_and_remove same_policy); done.
  - apply (preserves_list_persistent_containers same_policy); done.
Qed.

Lemma policy_inv_same maps (st st' : State) :
  same_policy st st' -> policy_inv maps st -> policy_inv maps st'.
Proof. intros (Hm & Hp & Hps) [Hmaps H]. unfold policy_inv. by rewrite Hm, Hp, Hps. Qed.

(** What the status extractor answers depends on the engine and on the
    registry only. *)
Lemma extract_status_world maps (st1 st2 : State) :
  world st1 = world st2 ->
  (_extract_status maps st1).1 = (_extract_status maps st2).1 /\
  world (_extract_status maps st1).2 = world (_extract_status maps st2).2.
Proof.
  revert st1 st2. induction maps as [|mc maps IH]; intros st1 st2 Hw;
    cbn [_extract_status]; [done|].
  unfold bind, client_containers, engine_call. rewrite Hw.
  destruct (eng_containers (client mc) (world st2)) as [[cs|e] w]; [|done].
  unfold lift. destruct (status_pairs cs) as [entries|e]; [|done].
  set (a := set_world w (set_trace (trace st1 ++ _) st1)).
  set (b := set_world w (set_trace (trace st2 ++ _) st2)).
  destruct (IH a b eq_refl) as [H1 H2].
  destruct (_extract_status maps a) as [[r1|e1] s1],
           (_extract_status maps b) as [[r2|e2] s2];
    simpl in *; try done; by simplify_eq.
Qed.

Lemma get_status_world (st1 st2 : State) :
  world st1 = world st2 -> _maps st1 = _maps st2 ->
  (_get_status st1).1 = (_get_status st2).1.
Proof.
  intros Hw Hm. unfold _get_status, bind, get. rewrite Hm.
  destruct (extract_status_world (dict_values (_maps st2)) st1 st2 Hw) as [H1 _].
  destruct (_extract_status _ st1) as [[r1|e1] s1],
           (_extract_status _ st2) as [[r2|e2] s2]; simpl in *; by simplify_eq.
Qed.

Lemma get_status_same_policy : preserves same_policy _get_status.
Proof. apply (preserves_get_status same_policy); done. Qed.

(** [get_policy] from a state that satisfies the invariant. *)
Lemma get_policy_inv maps (st : State) :
  policy_inv maps st ->
  policy_inv maps (get_policy st).2 /\
  forall p st', get_policy st = (Ok p, st') ->
    p = 0%nat /\ _policy st' = Some 0%nat /\
    exists s, (_get_status st).1 = Ok s /\
      policies st' = [{| policy_maps := map container_map (dict_values maps);
                         status := Some s |}].
Proof.
  intros [Hmaps Hinv].
  set (st1 := (ensure_policy st).2).
  assert (H1 : ensure_policy st = (Ok tt, st1) /\ world st1 = world st /\
               _maps st1 = maps /\ _policy st1 = Some 0%nat /\
               exists s, policies st1 =
                 [{| policy_maps := map container_map (dict_values maps);
                     status := s |}]).
  { subst st1. unfold ensure_policy, bind, get, new_policy, modify.
    destruct (_policy st) as [p|] eqn:Hp; simpl.
    - destruct Hinv as (-> & s & Hs). rewrite Hp. split_and!; eauto.
    - rewrite Hinv, Hmaps. simpl. split_and!; eauto. }
  destruct H1 as (He & Hw & Hm1 & Hp1 & s1 & Hs1).
  pose proof (get_status_same_policy st1) as (Hm2 & Hp2 & Hs2).
  pose proof (get_status_world st1 st Hw (eq_trans Hm1 (eq_sym Hmaps))) as Hres.
  assert (Hgp : get_policy st =
                match _get_status st1 with
                | (Ok s, st2) =>
                    (Ok 0%nat,
                     set_policies
                       [{| policy_maps := map container_map (dict_values maps);
                           status := Some s |}] st2)
                | (Raise e, st2) => (Raise e, st2)
                end).
  { unfold get_policy. rewrite (bind_Ok _ _ _ _ _ He). unfold bind at 1.
    destruct (_get_status st1) as [[s|e] st2]; simpl in Hm2, Hp2, Hs2; [|done].
    unfold bind, get, set_status, modify, ret. rewrite Hp2, Hp1. simpl.
    by rewrite Hs2, Hs1. }
  fold get_policy. rewrite Hgp.
  destruct (_get_status st1) as [[s|e] st2]; simpl in Hm2, Hp2, Hs2, Hres.
  - split.
    + split; [simpl; congruence|]. simpl. rewrite Hp2, Hp1. eauto.
    + intros p st' [= <- <-]. simpl. split_and!; [done|congruence|].
      exists s. by split.
  - simpl. split; [|by intros p st' [=]].
    split; [congruence|]. rewrite Hp2, Hp1, Hs2, Hs1. eauto.
Qed.

Lemma init_policy_inv w arg dc (st0 : State) :
  __init__ w arg dc = Ok st0 -> policy_inv (_maps st0) st0.
Proof. destruct arg; intros [= <-]; by split. Qed.

Lemma lifetime_policy_inv maps ops (st : State) :
  policy_inv maps st -> policy_inv maps (lifetime ops st).
Proof.
  revert st. induction ops as [|o ops IH]; intros st Hinv; [done|].
  cbn [lifetime fold_left]. apply IH.
  destruct (decide_rel (fun a b : bool => a = b)
              (match o with op_get_policy => true | _ => false end) true)
    as [Ho|Ho].
  - destruct o; try discriminate Ho. apply get_policy_inv, Hinv.
  - eapply policy_inv_same; [apply exec_same_policy|done].
    by intros ->.
Qed.

(** C8. Over the whole life of an orchestrator (any sequence of its
    operations and of changes of its surroundings after [__init__]) at
    most one policy object exists.  Every call of [get_policy] that
    returns, returns the reference to that one object, which was made
    from the container maps of all registered maps, and leaves in its
    [status] attribute the mapping that [_get_status] computes at that
    call. *)
Theorem get_policy_single_instance (w : World) (arg : ContainerMapsArg)
    (dc : Client) (st0 : State) (ops : list Op) :
  __init__ w arg dc = Ok st0 ->
  let st := lifetime ops st0 in
  (length (policies st) <= 1)%nat /\
  forall p st', get_policy st = (Ok p, st') ->
    p = 0%nat /\ _policy st' = Some 0%nat /\
    exists s, (_get_status st).1 = Ok s /\
      policies st' =
        [{| policy_maps := map container_map (dict_values (_maps st0));
            status := Some s |}].
Proof.
  intros Hinit st.
  pose proof (lifetime_policy_inv _ ops _ (init_policy_inv _ _ _ _ Hinit)) as Hinv.
  fold st in Hinv. split.
  - destruct Hinv as [_ Hinv]. destruct (_policy st).
    + destruct Hinv as (_ & s & ->). simpl. lia.
    + rewrite Hinv. simpl. lia.
  - apply get_policy_inv, Hinv.
Qed.

End PolicyObject.

(** C8 on the simulated engine: a policy is requested, other operations
    follow, and the policy is requested again. *)
Lemma get_policy_single_instance_witness :
  let st :=
    lifetime (engine := sim_engine) (imports := sim_imports)
      (interpreter := python3)
      [op_get_policy; op_refresh_names;
       op_ensure_images (Some "m") [VStr "ubuntu"]; op_get_policy]
      (sim_state (sim_world ∅)) in
  (length (policies st) <= 1)%nat /\
  exists st', get_policy (interpreter := python3) st = (Ok 0%nat, st') /\
              length (policies st') = 1%nat.
Proof.
  intros st.
  destruct (get_policy_single_instance (engine := sim_engine)
              (imports := sim_imports) (interpreter := python3)
              (sim_world ∅) (SingleMap sim_map) 0%nat
              (sim_state (sim_world ∅))
              [op_get_policy; op_refresh_names;
               op_ensure_images (Some "m") [VStr "ubuntu"]; op_get_policy]
              eq_refl) as [Hlen Hget].
  fold st in Hlen, Hget. split; [exact Hlen|].
  destruct (get_policy (interpreter := python3) st) as [[p|e] st'] eqn:Hp.
  - destruct (Hget p st' eq_refl) as (-> & _ & s & _ & Hs).
    exists st'. split; [reflexivity|]. by rewrite Hs.
  - exfalso. vm_compute in Hp. discriminate Hp.
Defined.

(** ** The action executor *)

Section Executor.
Context `{engine : Engine} `{imports : Imports} `{interpreter : Interpreter}.

Lemma deref_alloc (d : Dict) (st : State) :
  deref (length (heap st)) (set_heap (heap st ++ [d]) st) = d.
Proof.
  unfold deref. simpl. rewrite lookup_app_r by lia.
  by rewrite Nat.sub_diag.
Qed.

(** With overrides for the action, [a_kwargs] is a new dictionary: the
    overrides over the keyword arguments of the action, the overrides
    winning; no dictionary that existed before is changed. *)
Lemma merge_kwargs_overrides (overrides : gmap string Dict) (action : string)
    (kwargs : option nat) (c : Dict) (st : State) :
  overrides !! action = Some c -> c <> ∅ ->
  let base := match kwargs with Some l => deref l st | None => ∅ end in
  merge_kwargs (Some overrides) action kwargs st =
    (Ok (length (heap st)), set_heap (heap st ++ [c ∪ base]) st).
Proof.
  intros Hc Hne base. unfold merge_kwargs. rewrite Hc.
  unfold bind at 1. unfold get at 1.
  assert (Ht : dict_truthy (Some c) = true).
  { simpl. by rewrite bool_decide_eq_false_2. }
  rewrite Ht.
  assert (Halloc : forall d,
    (a_kwargs <- new_dict d ;; dict_update a_kwargs (default ∅ (Some c)) ;;
     ret a_kwargs) st
    = (Ok (length (heap st)), set_heap (heap st ++ [c ∪ d]) st)).
  { intros d. unfold bind, new_dict, dict_update, modify, ret. simpl.
    rewrite deref_alloc. f_equal. unfold set_heap. simpl. f_equal.
    rewrite insert_app_r_alt by lia. by rewrite Nat.sub_diag. }
  destruct kwargs as [l|]; [|apply Halloc].
  unfold kwargs_truthy. subst base.
  case_bool_decide as Hd; simpl.
  - rewrite Hd. apply Halloc.
  - unfold bind at 1. unfold bind at 1. unfold get at 1. apply Halloc.
Qed.

(** Without overrides for the action, [a_kwargs] is the dictionary of
    the action itself when that is not empty. *)
Lemma merge_kwargs_alias (overrides : gmap string Dict) (action : string)
    (l : nat) (st : State) :
  dict_truthy (overrides !! action) = false -> deref l st <> ∅ ->
  merge_kwargs (Some overrides) action (Some l) st = (Ok l, st).
Proof.
  intros Hc Hne. unfold merge_kwargs. rewrite Hc.
  unfold bind, get, kwargs_truthy. by rewrite bool_decide_eq_false_2.
Qed.

(** Where the two dictionaries disagree, the merged one has the value of
    the overrides. *)
Lemma merge_override_wins (c base : Dict) (key : string) (v : Value) :
  c !! key = Some v -> (c ∪ base) !! key = Some v.
Proof. apply lookup_union_Some_l. Qed.

Lemma merge_base_kept (c base : Dict) (key : string) :
  c !! key = None -> (c ∪ base) !! key = base !! key.
Proof. apply lookup_union_r. Qed.

#[local] Instance heap_but_preorder (l0 : nat) : PreOrder (heap_but l0).
Proof.
  split.
  - by intros st l Hl.
  - intros a b c Hab Hbc l Hl. by rewrite Hbc, Hab.
Qed.

Lemma heap_but_world l0 w (st : State) : heap_but l0 st (set_world w st).
Proof. by intros l Hl. Qed.
Lemma heap_but_trace l0 t (st : State) : heap_but l0 st (set_trace t st).
Proof. by intros l Hl. Qed.
Lemma heap_but_image_tags l0 t (st : State) : heap_but l0 st (set_image_tags t st).
Proof. by intros l Hl. Qed.

Lemma dict_pop_heap_but l0 key : preserves (heap_but l0) (dict_pop l0 key).
Proof.
  intros st. unfold dict_pop. destruct (deref l0 st !! key); [|done].
  intros l Hl. simpl. by rewrite list_lookup_insert_ne.
Qed.

(** The call an action stands for changes no dictionary but [a_kwargs]. *)
Lemma dispatch_action_heap_but c action map_name container l0 roe :
  preserves (heap_but l0) (dispatch_action c action map_name container l0 roe).
Proof.
  pose proof (heap_but_preorder l0).
  pose proof (heap_but_world l0). pose proof (heap_but_trace l0).
  pose proof (heap_but_image_tags l0). pose proof (dict_pop_heap_but l0).
  pose proof (preserves_ensure_images (heap_but l0)).
  pose proof (preserves_adjust_permissions (heap_but l0)).
  pose proof (preserves_bind_adjust_kwargs (heap_but l0)).
  pose proof (preserves_on_api_error (heap_but l0)).
  pose proof (fun A (f : State -> A) => preserves_get (heap_but l0) f).
  unfold dispatch_action. frame.
Qed.

(** With overrides for the action, running it changes none of the
    dictionaries that existed before, the one of the action included. *)
Lemma run_action_overridden_keeps_kwargs (overrides : gmap string Dict)
    (action : string) (map_name : option string) (container : string)
    (kwargs : option nat) (c : Dict) (roe : bool) (st : State) (l : nat) :
  overrides !! action = Some c -> c <> ∅ -> (l < length (heap st))%nat ->
  heap (run_action (action, map_name, container, kwargs) (Some overrides) roe st).2
    !! l = heap st !! l.
Proof.
  intros Hc Hne Hl. unfold run_action. unfold bind at 1.
  rewrite get_client_eq. destruct (dict_get _ _) as [mc|]; [|done].
  unfold bind. rewrite (merge_kwargs_overrides _ _ _ _ _ Hc Hne).
  set (st1 := set_heap _ st).
  pose proof (dispatch_action_heap_but (client mc) action map_name container
                (length (heap st)) roe st1 l ltac:(lia)) as H.
  destruct (dispatch_action _ _ _ _ _ _ st1) as [r st2]. simpl in *.
  rewrite H. by apply lookup_app_l.
Qed.

(** A stop or remove action, once its client and its arguments are
    there: what the call on the engine answers decides the outcome. *)
Lemma run_action_teardown (t : Teardown) (action : string)
    (map_name : option string) (container : string) (kwargs : option nat)
    (apply_kwargs : option (gmap string Dict)) (raise_on_error : bool)
    (st : State) (mc : MapClient) (l : nat) (st1 : State) :
  branch_of action = td_branch t ->
  dict_get (_maps st) map_name = Some mc ->
  merge_kwargs apply_kwargs action kwargs st = (Ok l, st1) ->
  run_action (action, map_name, container, kwargs) apply_kwargs raise_on_error st =
    let kw := deref l st1 in
    let called w :=
      set_world w
        (set_trace (trace st1 ++ [td_call t (client mc) (VStr container) kw]) st1) in
    let logged w expl :=
      set_trace
        (trace (called w) ++
           [call_push_log (client mc)
              ("Failed to " +:+ td_word t +:+ " container '" +:+ container
                 +:+ "': " +:+ expl) (Some ERROR)]) (called w) in
    match td_engine t (client mc) (VStr container) kw (world st1) with
    | (Ok _, w) => (Ok None, called w)
    | (Raise (APIError code expl), w) =>
        if code =? 404 then (Ok None, called w)
        else if raise_on_error then (Raise (APIError code expl), logged w expl)
        else (Ok None, logged w expl)
    | (Raise e, w) => (Raise e, called w)
    end.
Proof.
  intros Hb Hmc Hk. unfold run_action.
  unfold bind at 1. rewrite get_client_eq, Hmc.
  unfold bind at 1. rewrite Hk. unfold dispatch_action. rewrite Hb.
  destruct t; cbn [td_branch td_call td_engine td_word];
    unfold bind, get, try_except_APIError, client_stop, client_remove_container,
      engine_call, on_api_error, client_push_log, modify, ret, raise.
  - destruct (eng_stop _ _ _ _) as [[[]|[code expl| | | | |]] w]; try done.
    destruct (code =? 404); [done|]. simpl. by destruct raise_on_error.
  - destruct (eng_remove_container _ _ _ _) as [[[]|[code expl| | | | |]] w];
      try done.
    destruct (code =? 404); [done|]. simpl. by destruct raise_on_error.
Qed.

(** C3. For a stop or a remove action whose call on the engine raises an
    [APIError]: with status code 404 nothing is logged and the run goes
    on with the actions that follow; with any other status code the
    failure is logged at level [ERROR], and then the error is raised
    again, the actions that follow not being run, when [raise_on_error]
    is true, and the run goes on with the actions that follow when it is
    false. *)
Theorem teardown_error_policy (t : Teardown) (action : string)
    (map_name : option string) (container : string) (kwargs : option nat)
    (rest : list ContainerAction) (apply_kwargs : option (gmap string Dict))
    (st : State) (mc : MapClient) (l : nat) (st1 : State)
    (code : Z) (expl : string) (w : World) :
  branch_of action = td_branch t ->
  dict_get (_maps st) map_name = Some mc ->
  merge_kwargs apply_kwargs action kwargs st = (Ok l, st1) ->
  td_engine t (client mc) (VStr container) (deref l st1) (world st1)
    = (Raise (APIError code expl), w) ->
  let a := (action, map_name, container, kwargs) in
  let called :=
    set_world w
      (set_trace
         (trace st1 ++ [td_call t (client mc) (VStr container) (deref l st1)])
         st1) in
  let logged :=
    set_trace
      (trace called ++
         [call_push_log (client mc)
            ("Failed to " +:+ td_word t +:+ " container '" +:+ container
               +:+ "': " +:+ expl) (Some ERROR)]) called in
  (code = 404 ->
     forall raise_on_error,
       run_action_list (a :: rest) apply_kwargs raise_on_error st =
       run_action_list rest apply_kwargs raise_on_error called) /\
  (code <> 404 ->
     run_action_list (a :: rest) apply_kwargs true st =
       ([], Raise (APIError code expl), logged) /\
     run_action_list (a :: rest) apply_kwargs false st =
       run_action_list rest apply_kwargs false logged).
Proof.
  intros Hb Hmc Hk He a called logged. subst a. split.
  - intros -> roe. cbn [run_action_list].
    rewrite (run_action_teardown t _ _ _ _ _ roe _ _ _ _ Hb Hmc Hk).
    cbv zeta. rewrite He. simpl.
    by destruct (run_action_list rest apply_kwargs roe _) as [[ys r] st'].
  - intros Hcode. cbn [run_action_list].
    rewrite !(run_action_teardown t _ _ _ _ _ _ _ _ _ _ Hb Hmc Hk).
    cbv zeta. rewrite He.
    assert (Hneq : (code =? 404) = false) by (by apply Z.eqb_neq).
    rewrite Hneq. split; [reflexivity|].
    by destruct (run_action_list rest apply_kwargs false _) as [[ys r] st'].
Qed.

End Executor.

(** C3 on the simulated engine: a stop action with an override, followed
    by a remove action.  When stopping fails with status 500 and errors are
    to be raised, the run ends with the error after the log entry; when it
    fails with status 404, the remove action is run next. *)
Lemma teardown_error_policy_witness :
  let ak : option (gmap string Dict) :=
    Some {["stop" := {["timeout" := VInt 5]}]} in
  let a : ContainerAction := ("stop", Some "m", "m.web", None) in
  let rest : list ContainerAction := [("remove", Some "m", "m.web", None)] in
  let kw : Dict := {["timeout" := VInt 5]} in
  let '(ys, r, st') :=
    run_action_list (engine := sim_engine) (imports := sim_imports)
      (a :: rest) ak true (sim_state (sim_stop_fails 500)) in
  r = Raise (APIError 500 "stop failed") /\
  trace st' = [call_stop 0%nat (VStr "m.web") kw;
               call_push_log 0%nat "Failed to stop container 'm.web': stop failed"
                 (Some ERROR)] /\
  trace (run_action_list (engine := sim_engine) (imports := sim_imports)
           (a :: rest) ak true (sim_state (sim_stop_fails 404))).2
  = [call_stop 0%nat (VStr "m.web") kw;
     call_remove_container 0%nat (VStr "m.web") ∅].
Proof.
  intros ak a rest kw.
  pose (mc := {| container_map := sim_map; client := 0%nat |}).
  assert (Hk : forall code,
    merge_kwargs (engine := sim_engine) ak "stop" None (sim_state (sim_stop_fails code))
    = (Ok 0%nat, set_heap [kw] (sim_state (sim_stop_fails code)))).
  { intros code. by vm_compute. }
  destruct (teardown_error_policy (engine := sim_engine) (imports := sim_imports)
              td_stop "stop" (Some "m") "m.web" None rest ak
              (sim_state (sim_stop_fails 500)) mc 0%nat _ 500 "stop failed"
              (sim_stop_fails 500) eq_refl eq_refl (Hk 500) eq_refl)
    as [_ H500].
  destruct (teardown_error_policy (engine := sim_engine) (imports := sim_imports)
              td_stop "stop" (Some "m") "m.web" None rest ak
              (sim_state (sim_stop_fails 404)) mc 0%nat _ 404 "stop failed"
              (sim_stop_fails 404) eq_refl eq_refl (Hk 404) eq_refl)
    as [H404 _].
  destruct (H500 ltac:(done)) as [Hraise _].
  subst a. rewrite Hraise, (H404 eq_refl true).
  split; [reflexivity|]. split; by vm_compute.
Defined.

(** C2, the part the code keeps: an override over the keyword arguments of
    a create action.  The action's dictionary still has its image after
    the run. *)
Lemma create_action_with_override_keeps_image :
  let st :=
    set_heap [ {["image" := VStr "ubuntu"]} ]
      (sim_cached (sim_world {["ubuntu:latest"]}) {["ubuntu:latest"]}) in
  let a : ContainerAction := ("create", Some "m", "m.web", Some 0%nat) in
  let '(ys, r, st') :=
    run_action_list (imports := sim_imports) [a]
      (Some {["create" := {["user" := VStr "app"]}]}) false st in
  r = Ok tt /\ deref 0 st' = {["image" := VStr "ubuntu"]} /\
  trace st' = [call_create_container 0%nat (VStr "ubuntu") (Some "m.web")
                 {["user" := VStr "app"]}].
Proof. vm_compute. by split_and!. Qed.

(** C2, at the input where the code departs from it: a create action whose
    dictionary holds the image, run with no override for it (what
    [create] passes when called without keyword arguments).  [a_kwargs]
    is then the action's own dictionary, and popping the image empties it:
    after the run the action has lost its [image] key, and a second run of
    the same action fails with a [KeyError].  A prepare action loses its
    image in the same way. *)
Lemma create_action_pops_image_of_action :
  let st :=
    set_heap [ {["image" := VStr "ubuntu"]};
               <["image" := VStr "ubuntu"]>
                 (<["path" := VStr "/data"]>
                    (<["user" := VNone]> {["permissions" := VNone]})) ]
      (sim_cached (sim_world {["ubuntu:latest"]}) {["ubuntu:latest"]}) in
  let create : ContainerAction := ("create", Some "m", "m.web", Some 0%nat) in
  let prepare : ContainerAction := ("prepare", Some "m", "m.web", Some 1%nat) in
  deref 0 st !! "image" = Some (VStr "ubuntu") /\
  deref 1 st !! "image" = Some (VStr "ubuntu") /\
  let '(ys, r, st') :=
    run_action_list (imports := sim_imports) [create; prepare]
      (Some {["create" := ∅]}) false st in
  r = Ok tt /\
  deref 0 st' !! "image" = None /\
  deref 1 st' !! "image" = None /\
  (run_action_list (imports := sim_imports) [create]
     (Some {["create" := ∅]}) false st').1.2 = Raise (KeyError "image").
Proof. vm_compute. by split_and!. Qed.

(** ** Permission adjustment *)

Section Permissions.
Context `{engine : Engine} `{imports : Imports} `{interpreter : Interpreter}.





End Permissions.



(** ** Persistent containers *)

Section Persistent.
Context `{engine : Engine} `{imports : Imports} `{interpreter : Interpreter}.

Lemma fold_left_yield {A B : Type} (f : A -> B) (l : list A) (out : list B) :
  fold_left (fun out x => yield out (f x)) l out = out ++ map f l.
Proof.
  revert out. induction l as [|x l IH]; intros out; simpl.
  - by rewrite app_nil_r.
  - rewrite IH. unfold yield. by rewrite <- app_assoc.
Qed.

Lemma names_of_container_spec (c_map : ContainerMap) (out : list string)
    (item : string * ContainerConfiguration) :
  names_of_container c_map out item = out ++ persistent_names (name c_map) item.
Proof.
  destruct item as [container config]. unfold names_of_container, persistent_names.
  cbn [fst snd]. rewrite fold_left_yield.
  destruct (persistent config); [|by rewrite app_nil_r].
  destruct (instances config) as [|ci cis] eqn:Hi.
  - rewrite decide_True by done. unfold yield. by rewrite <- app_assoc.
  - rewrite decide_False by done. rewrite fold_left_yield.
    by rewrite <- app_assoc.
Qed.

Lemma names_of_containers_spec (c_map : ContainerMap)
    (items : list (string * ContainerConfiguration)) (out : list string) :
  fold_left (names_of_container c_map) items out
  = out ++ flat_map (persistent_names (name c_map)) items.
Proof.
  revert out. induction items as [|item items IH]; intros out; simpl.
  - by rewrite app_nil_r.
  - rewrite IH, names_of_container_spec. by rewrite <- app_assoc.
Qed.

Lemma container_names_spec (maps : list MapClient) :
  _container_names maps
  = flat_map (fun mc => persistent_names_of_map (container_map mc)) maps.
Proof.
  unfold _container_names.
  enough (H : forall out,
    fold_left
      (fun out mc =>
         fold_left (names_of_container (container_map mc))
           (containers (container_map mc)) out) maps out
    = out ++ flat_map (fun mc => persistent_names_of_map (container_map mc)) maps)
    by apply (H []).
  induction maps as [|mc maps IH]; intros out; simpl.
  - by rewrite app_nil_r.
  - rewrite IH, names_of_containers_spec. by rewrite <- app_assoc.
Qed.

(** C9. [list_persistent_containers] returns, for every selected map
    (the named one, or all of them when no name is given) and every
    configuration of it in turn, one name for each attached alias and,
    for a configuration marked persistent, one name for each declared
    instance, or one name for the default instance when none is
    declared.  A configuration with one attached alias and two instances
    that is persistent gives three names; one that is not persistent and
    has no attachment gives none. *)
Theorem list_persistent_containers_spec (st : State) :
  list_persistent_containers None st =
    (Ok (flat_map (fun mc => persistent_names_of_map (container_map mc))
           (dict_values (_maps st))), st) /\
  (forall m mc,
     m <> "" -> dict_get (_maps st) (Some m) = Some mc ->
     list_persistent_containers (Some m) st =
       (Ok (persistent_names_of_map (container_map mc)), st)) /\
  (forall m item,
     length (persistent_names m item) = persistent_count item.2) /\
  (forall m container ac i1 i2,
     persistent_names m
       (container, {| attaches := [ac]; persistent := true; instances := [i1; i2] |})
     = [cname (Some m) ac None; cname (Some m) container (Some i1);
        cname (Some m) container (Some i2)]) /\
  (forall m container insts,
     persistent_names m
       (container, {| attaches := []; persistent := false; instances := insts |})
     = []).
Proof.
  split_and!.
  - unfold list_persistent_containers, bind, get, ret.
    by rewrite container_names_spec.
  - intros m mc Hm Hmc. unfold list_persistent_containers.
    assert (Ht : str_truthy m = true) by (destruct m; [done|reflexivity]).
    rewrite Ht. unfold bind, get, ret. rewrite Hmc.
    rewrite container_names_spec. simpl. by rewrite app_nil_r.
  - intros m [container config]. unfold persistent_names, persistent_count.
    cbn [fst snd]. rewrite length_app, length_map. f_equal.
    destruct (persistent config); [|done].
    destruct (instances config) as [|ci cis]; [done|].
    rewrite decide_False by done. rewrite length_map. simpl. lia.
  - reflexivity.
  - reflexivity.
Qed.

End Persistent.

(** C9 on the simulated map: an attached alias and a persistent container
    with the instances [a] and [b] give three names; the container [job],
    not persistent and without attachments, adds none. *)
Lemma list_persistent_containers_spec_witness :
  list_persistent_containers (imports := sim_imports) (Some "m")
    (sim_state (sim_world ∅))
  = (Ok ["m.sock"; "m.web.a"; "m.web.b"], sim_state (sim_world ∅)).
Proof.
  destruct (list_persistent_containers_spec (imports := sim_imports)
              (sim_state (sim_world ∅))) as (_ & Hnamed & _).
  rewrite (Hnamed "m" {| container_map := sim_map; client := 0%nat |});
    [reflexivity | discriminate | reflexivity].
Defined.

(** * Further properties of the module *)

(** ** The registry *)

Lemma dict_get_set {V : Type} (k k' : string) (v : V) (d : list (string * V)) :
  dict_get (dict_set k v d) (Some k') =
    if String.eqb k' k then Some v else dict_get d (Some k').
Proof.
  induction d as [|[k0 v0] d IH]; simpl.
  - by destruct (String.eqb k' k).
  - destruct (String.eqb_spec k k0) as [->|Hk]; simpl.
    + by destruct (String.eqb k' k0).
    + destruct (String.eqb_spec k' k0) as [->|Hk'].
      * destruct (String.eqb_spec k0 k) as [->|_]; [done|reflexivity].
      * exact IH.
Qed.

Lemma dict_set_keys {V : Type} (k : string) (v : V) (d : list (string * V)) :
  ((dict_set k v d).*1 = d.*1) \/
  ((k ∉ d.*1) /\ (dict_set k v d).*1 = d.*1 ++ [k]).
Proof.
  induction d as [|[k0 v0] d IH]; simpl.
  - right. split; [apply not_elem_of_nil|done].
  - destruct (String.eqb_spec k k0) as [->|Hk]; simpl; [by left|].
    destruct IH as [IH|[Hn IH]].
    + left. f_equal. exact IH.
    + right. split; [|f_equal; exact IH].
      apply not_elem_of_cons. by split.
Qed.

Lemma dict_set_NoDup {V : Type} (k : string) (v : V) (d : list (string * V)) :
  NoDup d.*1 -> NoDup (dict_set k v d).*1.
Proof.
  intros Hd. destruct (dict_set_keys k v d) as [He|[Hn He]]; rewrite He; [done|].
  apply NoDup_app. split_and!; [done| |apply NoDup_singleton].
  intros x Hx Hk. apply list_elem_of_singleton in Hk. by subst.
Qed.

Section Registry.
Context `{engine : Engine}.

Lemma init_list_registry (l : list (ContainerMap * Client))
    (d : list (string * MapClient)) :
  let registry :=
    fold_left
      (fun d '(c_map, client) =>
         dict_set (name c_map) {| container_map := c_map; client := client |} d)
      l d in
  (NoDup d.*1 -> NoDup registry.*1) /\
  forall m,
    dict_get registry (Some m) =
      match last (filter (fun p => name p.1 = m) l) with
      | Some (c_map, client) => Some {| container_map := c_map; client := client |}
      | None => dict_get d (Some m)
      end.
Proof.
  revert d. induction l as [|[cm c] l IH]; intros d; simpl; [done|].
  destruct (IH (dict_set (name cm) {| container_map := cm; client := c |} d))
    as [Hnd Hget].
  split; [intros Hd; by apply Hnd, dict_set_NoDup|].
  intros m. rewrite Hget, dict_get_set.
  rewrite filter_cons. cbn [fst]. case_decide as Hm.
  - subst m. rewrite last_cons, String.eqb_refl.
    by destruct (last (filter _ l)) as [[cm' c']|].
  - destruct (last (filter _ l)) as [[cm' c']|]; [done|].
    destruct (String.eqb_spec m (name cm)) as [->|_]; done.
Qed.

(** X1. [__init__] with a list of pairs: there is no default map, no name
    occurs twice in the registry, and looking a name up gives the client
    of the last pair of the list whose map has that name; a name that no
    map of the list has is an unknown map. *)
Theorem init_list_lookup (w : World) (l : list (ContainerMap * Client))
    (dc : Client) (st0 : State) :
  __init__ w (MapList l) dc = Ok st0 ->
  _default_map st0 = None /\
  NoDup (_maps st0).*1 /\
  forall m,
    _get_client (Some m) st0 =
      match last (filter (fun p => name p.1 = m) l) with
      | Some (c_map, client) => (Ok client, st0)
      | None =>
          (Raise (ValueError ("No map found with name '" +:+ m +:+ "'.")), st0)
      end.
Proof.
  intros [= <-]. cbn [_default_map _maps].
  destruct (init_list_registry l []) as [Hnd Hget].
  split; [done|]. split; [apply Hnd, NoDup_nil_2|].
  intros m. rewrite get_client_eq. cbn [_maps]. rewrite Hget.
  by destruct (last (filter _ l)) as [[cm c]|].
Qed.

End Registry.

(** [__init__] with the pairs [(m, 0); (db, 1); (m, 2)]: the name [m] leads
    to client 2, the name [db] to client 1, and [web] is no map. *)
Lemma init_list_lookup_witness :
  exists st0 : @State sim_engine,
    __init__ (engine := sim_engine) (sim_world ∅) (MapList sim_pairs) 0%nat
      = Ok st0 /\
    _get_client (Some "m") st0 = (Ok 2%nat, st0) /\
    _get_client (Some "db") st0 = (Ok 1%nat, st0) /\
    _get_client (Some "web") st0 =
      (Raise (ValueError "No map found with name 'web'."), st0).
Proof.
  eexists. split; [reflexivity|].
  destruct (init_list_lookup (engine := sim_engine) (sim_world ∅) sim_pairs
              0%nat _ eq_refl) as (_ & _ & Hget).
  split_and!; [rewrite (Hget "m") | rewrite (Hget "db") | rewrite (Hget "web")];
    reflexivity.
Defined.

(** ** The status of the containers *)

Lemma dict_of_pairs_snoc (l : list (string * Value)) (k : string) (v : Value) :
  dict_of_pairs (l ++ [(k, v)]) = <[k := v]> (dict_of_pairs l).
Proof. unfold dict_of_pairs. by rewrite fold_left_app. Qed.

(** [dict(pairs)]: a key has the value of the last pair that has the key. *)
Lemma dict_of_pairs_lookup (l : list (string * Value)) (k : string) :
  dict_of_pairs l !! k = snd <$> last (filter (fun p => p.1 = k) l).
Proof.
  induction l as [|[k' v] l IH] using rev_ind; [done|].
  rewrite dict_of_pairs_snoc, filter_app, filter_cons, filter_nil. cbn [fst].
  case_decide as Hk.
  - subst k'. rewrite lookup_insert_eq. by rewrite last_snoc.
  - rewrite lookup_insert_ne by done. by rewrite app_nil_r.
Qed.

Section Status.
Context `{engine : Engine} `{interpreter : Interpreter}.

Lemma status_pairs_app (l1 l2 : list ContainerInfo) :
  status_pairs (l1 ++ l2) =
    match status_pairs l1 with
    | Ok e1 =>
        match status_pairs l2 with
        | Ok e2 => Ok (e1 ++ e2)
        | Raise e => Raise e
        end
    | Raise e => Raise e
    end.
Proof.
  induction l1 as [|c l1 IH]; cbn [app status_pairs].
  - by destruct (status_pairs l2).
  - destruct (status_entries c) as [es|e]; [|done]. rewrite IH.
    destruct (status_pairs l1) as [e1|e]; [|done].
    destruct (status_pairs l2) as [e2|e]; [|done]. by rewrite app_assoc.
Qed.

(** A pair the generator yields comes from a name of a record and the
    status value of that record. *)
Lemma status_pairs_elem (cs : list ContainerInfo) entries k v :
  status_pairs cs = Ok entries -> (k, v) ∈ entries ->
  exists record nm,
    record ∈ cs /\ nm ∈ Names record /\ k = drop_first nm /\
    classify_status (Status record) = Ok v.
Proof.
  revert entries. induction cs as [|c cs IH]; intros entries H Hin;
    cbn [status_pairs] in H.
  - injection H as <-. by apply elem_of_nil in Hin.
  - unfold status_entries in H.
    destruct (classify_status (Status c)) as [cv|e] eqn:Hc; [|done].
    destruct (status_pairs cs) as [more|e]; [|done]. injection H as <-.
    apply elem_of_app in Hin as [Hin|Hin].
    + apply list_elem_of_In, in_map_iff in Hin as (nm & [= <- <-] & Hnm).
      exists c, nm. split_and!; [left | by apply list_elem_of_In | done | done].
    + destruct (IH more eq_refl Hin) as (record & nm & Hrec & Hrest).
      exists record, nm. split; [by right | done].
Qed.

Lemma set_world_trace_again (w w0 : World) (t t0 : list Call) (st : State) :
  set_world w (set_trace t (set_world w0 (set_trace t0 st)))
  = set_world w (set_trace t st).
Proof. reflexivity. Qed.

(** A run of the generator that comes to its end: every client has
    answered, and the pairs are those of the records answered. *)
Lemma extract_status_ok (maps : list MapClient) (st : State) entries st' :
  _extract_status maps st = (Ok entries, st') ->
  exists calls cs,
    query_containers maps (world st) = (calls, Ok cs, world st') /\
    status_pairs cs = Ok entries /\
    st' = set_world (world st') (set_trace (trace st ++ calls) st).
Proof.
  revert st entries st'.
  induction maps as [|mc maps IH]; intros st entries st';
    cbn [_extract_status query_containers].
  - unfold ret. intros [= <- <-]. exists [], []. rewrite app_nil_r.
    by destruct st.
  - unfold bind at 1. unfold client_containers, engine_call.
    destruct (eng_containers (client mc) (world st)) as [[cs0|e] w1]; [|done].
    unfold bind at 1. unfold lift at 1.
    destruct (status_pairs cs0) as [entries0|e] eqn:H0; [|done].
    unfold bind at 1.
    destruct (_extract_status maps _) as [[rest|e] st1] eqn:Hrest; [|done].
    unfold ret. intros [= <- <-].
    destruct (IH _ _ _ Hrest) as (calls & cs & Hq & Hp & Hst).
    cbn [world trace set_world set_trace] in Hq, Hst. rewrite Hq.
    exists (call_containers (client mc) :: calls), (cs0 ++ cs).
    split; [done|]. split; [by rewrite status_pairs_app, H0, Hp|].
    rewrite Hst at 1. rewrite set_world_trace_again.
    by rewrite <- app_assoc.
Qed.

(** A run of the generator that raises: the clients before some client
    have answered with records whose status texts were converted, and
    either the call on that client raises the error or it answers and a
    status text of its answer is refused with the error.  No client after
    that one is asked. *)
Lemma extract_status_raise (maps : list MapClient) (st : State) e st' :
  _extract_status maps st = (Raise e, st') ->
  exists k mc calls cs w,
    maps !! k = Some mc /\
    query_containers (take k maps) (world st) = (calls, Ok cs, w) /\
    (exists entries, status_pairs cs = Ok entries) /\
    (eng_containers (client mc) w = (Raise e, world st') \/
     exists cs', eng_containers (client mc) w = (Ok cs', world st') /\
                 status_pairs cs' = Raise e) /\
    st' = set_world (world st')
            (set_trace
               (trace st ++ map (fun mc => call_containers (client mc)) (take (S k) maps))
               st).
Proof.
  revert st st'.
  induction maps as [|mc maps IH]; intros st st'; cbn [_extract_status]; [done|].
  unfold bind at 1. unfold client_containers, engine_call.
  destruct (eng_containers (client mc) (world st)) as [[cs0|e0] w1] eqn:He.
  - unfold bind at 1. unfold lift at 1.
    destruct (status_pairs cs0) as [entries0|e0] eqn:H0.
    + unfold bind at 1.
      destruct (_extract_status maps _) as [[rest|e1] st1] eqn:Hrest; [done|].
      intros [= <- <-].
      destruct (IH _ _ Hrest) as (k & mc' & calls & cs & w & Hk & Hq & [en Hp] & Hlast & Hst).
      cbn [world trace set_world set_trace] in Hq, Hst.
      exists (S k), mc', (call_containers (client mc) :: calls), (cs0 ++ cs), w.
      split; [done|]. split; [cbn [take query_containers]; by rewrite He, Hq|].
      split; [exists (entries0 ++ en); by rewrite status_pairs_app, H0, Hp|].
      split; [done|].
      rewrite Hst at 1. rewrite set_world_trace_again.
      by rewrite <- app_assoc.
    + intros [= <- <-]. exists 0%nat, mc, [], [], (world st).
      split_and!; [done | done | by exists [] | | done].
      right. exists cs0. by rewrite He.
  - intros [= <- <-]. exists 0%nat, mc, [], [], (world st).
    split_and!; [done | done | by exists [] | | done].
    left. by rewrite He.
Qed.

Lemma query_containers_calls (maps : list MapClient) (w : World) :
  let '(calls, r, _) := query_containers maps w in
  calls `prefix_of` map (fun mc => call_containers (client mc)) maps /\
  (forall cs, r = Ok cs -> calls = map (fun mc => call_containers (client mc)) maps).
Proof.
  revert w. induction maps as [|mc maps IH]; intros w; cbn [query_containers].
  - split; [done|]. by intros cs _.
  - destruct (eng_containers (client mc) w) as [[cs|e] w1].
    + specialize (IH w1).
      destruct (query_containers maps w1) as [[calls r] w2].
      destruct IH as [Hpre Hall]. split.
      * simpl. by apply prefix_cons.
      * intros cs0 Hr. simpl. f_equal. destruct r as [cs'|e]; [|done].
        by apply (Hall cs').
    + split; [|by intros cs [=]]. simpl. apply prefix_cons, prefix_nil.
Qed.

(** X2. [_get_status] asks the clients of the registered maps for their
    containers, in the order of the registry, and makes no other call.  It
    returns when every client has answered and every status text of the
    answers has been converted.  It raises at the first client whose call
    raises, with that error, or whose answer has a status text that [int]
    refuses, with that error: the clients before have answered, and no
    client after it is asked.  It changes nothing but the engine (and the
    record of the calls). *)
Theorem get_status_calls (st : State) :
  let maps := dict_values (_maps st) in
  let call := fun mc => call_containers (client mc) in
  let '(r, st') := _get_status st in
  exists n : nat,
    st' = set_world (world st') (set_trace (trace st ++ map call (take n maps)) st) /\
    match r with
    | Ok _ =>
        n = length maps /\
        exists calls cs entries,
          query_containers maps (world st) = (calls, Ok cs, world st') /\
          status_pairs cs = Ok entries
    | Raise e =>
        exists k mc calls cs w,
          n = S k /\ maps !! k = Some mc /\
          query_containers (take k maps) (world st) = (calls, Ok cs, w) /\
          (exists entries, status_pairs cs = Ok entries) /\
          (eng_containers (client mc) w = (Raise e, world st') \/
           exists cs', eng_containers (client mc) w = (Ok cs', world st') /\
                       status_pairs cs' = Raise e)
    end.
Proof.
  intros maps call. unfold _get_status. unfold bind at 1. unfold get at 1.
  fold maps. unfold bind.
  destruct (_extract_status maps st) as [[entries|e] st'] eqn:Hrun.
  - apply extract_status_ok in Hrun as (calls & cs & Hq & Hp & Hst).
    pose proof (query_containers_calls maps (world st)) as Hc.
    rewrite Hq in Hc. destruct Hc as [_ Hc]. specialize (Hc cs eq_refl).
    exists (length maps). unfold ret. rewrite firstn_all. fold call in Hc.
    rewrite <- Hc. split; [exact Hst|]. split; [done|]. by exists calls, cs, entries.
  - apply extract_status_raise in Hrun
      as (k & mc & calls & cs & w & Hk & Hq & Hp & Hlast & Hst).
    exists (S k). split; [exact Hst|]. by exists k, mc, calls, cs, w.
Qed.

(** X3. The mapping [_get_status] returns: a name has the status of the last
    record carrying it, taking the records in the order the maps were asked
    and the engine answered; the name is the reported one without its
    first character and the status is the classification of the record's
    status text. *)
Theorem get_status_last_wins (st : State) (s : gmap string Value) (st' : State) :
  _get_status st = (Ok s, st') ->
  exists calls cs entries,
    query_containers (dict_values (_maps st)) (world st) = (calls, Ok cs, world st') /\
    status_pairs cs = Ok entries /\
    (forall k,
       s !! k = snd <$> last (filter (fun p => p.1 = k) entries)) /\
    (forall k v,
       s !! k = Some v ->
       exists record nm,
         record ∈ cs /\ nm ∈ Names record /\ k = drop_first nm /\
         classify_status (Status record) = Ok v).
Proof.
  unfold _get_status. unfold bind at 1. unfold get at 1.
  unfold bind.
  destruct (_extract_status _ st) as [[entries|e] st1] eqn:Hrun; [|done].
  unfold ret. intros [= <- <-].
  apply extract_status_ok in Hrun as (calls & cs & Hq & Hp & Hst).
  exists calls, cs, entries. split; [done|]. split; [done|].
  split; [intros k; apply dict_of_pairs_lookup|].
  intros k v Hk. rewrite dict_of_pairs_lookup in Hk.
  destruct (last _) as [[k' v']|] eqn:Hl; [|done]. injection Hk as ->.
  apply last_Some_elem_of, list_elem_of_filter in Hl as [Hkey Hin].
  cbn [fst] in Hkey. subst k'.
  exact (status_pairs_elem cs entries k v Hp Hin).
Qed.

End Status.

(** On the simulated engine the container [job] is reported under the
    names [/m.job] and [/job]: both get the exit code 3, and [m.web] is
    running. *)
Lemma get_status_last_wins_witness :
  exists s st',
    _get_status (interpreter := python3) (sim_state (sim_world ∅)) = (Ok s, st') /\
    s !! "m.job" = Some (VInt 3) /\ s !! "job" = Some (VInt 3) /\
    s !! "m.web" = Some (VBool true) /\
    exists record nm,
      record ∈ [{| Status := text_of "Up 2 hours"; Names := ["/m.web"] |};
                {| Status := text_of "Exited (3) 1 hour ago";
                   Names := ["/m.job"; "/job"] |}] /\
      nm ∈ Names record /\ "job" = drop_first nm /\
      classify_status (interpreter := python3) (Status record) = Ok (VInt 3).
Proof.
  destruct (_get_status (interpreter := python3) (sim_state (sim_world ∅)))
    as [[s|e] st'] eqn:Hs; [|vm_compute in Hs; discriminate Hs].
  exists s, st'. split; [reflexivity|].
  destruct (get_status_last_wins (engine := sim_engine) (interpreter := python3)
              _ _ _ Hs)
    as (calls & cs & entries & Hq & Hp & Hlast & Hval).
  vm_compute in Hq. injection Hq as <- <- _.
  vm_compute in Hp. injection Hp as <-.
  assert (Hjob : s !! "job" = Some (VInt 3)) by (rewrite Hlast; reflexivity).
  split_and!; [rewrite Hlast; reflexivity | exact Hjob | rewrite Hlast; reflexivity |].
  exact (Hval "job" (VInt 3) Hjob).
Defined.

(** The second of three clients is out of reach: the first two are asked,
    the third is not, and the error of the second is raised. *)
Example get_status_failed_query :
  let '(r, st') :=
    _get_status (interpreter := python3) (listing_state second_fails (Ok tt)) in
  r = Raise (APIError 500 "unreachable") /\
  trace st' = [call_containers 0%nat; call_containers 1%nat] /\
  world st' = 2%nat.
Proof. by vm_compute. Qed.

(** The first client reports an exit code of 4301 digits: under Python 3.11
    the conversion is refused and no other client is asked; under Python 2
    all three are asked. *)
Example get_status_long_code :
  (let '(r, st') := _get_status (interpreter := python3) (listing_state long_code (Ok tt)) in
   r = Raise (ValueError "Exceeds the limit for integer string conversion") /\
   trace st' = [call_containers 0%nat]) /\
  (let '(r, st') := _get_status (interpreter := python2) (listing_state long_code (Ok tt)) in
   (exists s, r = Ok s) /\
   trace st' = [call_containers 0%nat; call_containers 1%nat; call_containers 2%nat]).
Proof. split; vm_compute; eauto. Qed.

(** ** Status texts and image references *)

Section StatusValues.
Context `{interpreter : Interpreter}.

(** X4. What the outcome of the classification says about the status text:
    [False] only for the empty text and [True] only for a text starting
    with [Up]; an integer only for a text starting with [Exited (], a
    non-empty run of characters that are decimal digits for the
    interpreter, and [)], the run being within the interpreter's bound,
    and then the integer is the number the digits denote and is not
    negative; an error only for such a text whose run of digits is beyond
    the bound, and the error is a [ValueError].  A status value is [None],
    a truth value or an integer. *)
Theorem classify_status_inv (s : text) :
  (classify_status s = Ok (VBool false) <-> s = []) /\
  (classify_status s = Ok (VBool true) <-> startswith s (text_of "Up") = true) /\
  (forall n, classify_status s = Ok (VInt n) ->
     0 <= n /\
     exists ds rest,
       s = text_of "Exited (" ++ ds ++ text_of ")" ++ rest /\ ds <> [] /\
       all_digits ds = true /\ n = int_acc 0 ds /\
       (int_max_str_digits = 0%N \/
        (N.of_nat (length ds) <= int_max_str_digits)%N)) /\
  (forall e, classify_status s = Raise e ->
     (exists msg, e = ValueError msg) /\
     exists ds rest,
       s = text_of "Exited (" ++ ds ++ text_of ")" ++ rest /\ ds <> [] /\
       all_digits ds = true /\
       (0 < int_max_str_digits)%N /\
       (int_max_str_digits < N.of_nat (length ds))%N) /\
  (forall v, classify_status s = Ok v ->
     v = VNone \/ (exists b, v = VBool b) \/ (exists n, v = VInt n)).
Proof.
  destruct s as [|a s].
  { change (classify_status []) with (Ok (VBool false)).
    split_and!; [done | done | by intros n [=] | by intros e [=] |].
    intros v [= <-]. eauto. }
  destruct (startswith (a :: s) (text_of "Up")) eqn:Hup.
  { assert (H : classify_status (a :: s) = Ok (VBool true)).
    { unfold classify_status. by rewrite bool_decide_eq_false_2, Hup. }
    rewrite H.
    split_and!; [done | done | by intros n [=] | by intros e [=] |].
    intros v [= <-]. eauto. }
  destruct (classify_status_other (a :: s) ltac:(done) Hup)
    as [(ds & rest & Hds & Hd & Hs & ->)|[_ ->]].
  - unfold int.
    destruct (N.ltb_spec 0 int_max_str_digits) as [H0|H0];
      destruct (N.ltb_spec int_max_str_digits (N.of_nat (length ds))) as [H1|H1];
      cbn [andb].
    + split_and!; [done | done | by intros n [=] | | by intros v [=]].
      intros e [= <-]. split; [eauto|]. by exists ds, rest.
    + split_and!; [done | done | | by intros e [=] | intros v [= <-]; eauto].
      intros n [= <-]. split; [by apply int_acc_nonneg|].
      exists ds, rest. split_and!; [done..|by right].
    + split_and!; [done | done | | by intros e [=] | intros v [= <-]; eauto].
      intros n [= <-]. split; [by apply int_acc_nonneg|].
      exists ds, rest. split_and!; [done..|left; lia].
    + split_and!; [done | done | | by intros e [=] | intros v [= <-]; eauto].
      intros n [= <-]. split; [by apply int_acc_nonneg|].
      exists ds, rest. split_and!; [done..|left; lia].
  - split_and!; [done | done | by intros n [=] | by intros e [=] |].
    intros v [= <-]. eauto.
Qed.

End StatusValues.

(** X4 under Python 3.11 at an exit status written in Arabic-Indic digits:
    the value 123 is that of a run of digits found in the text. *)
Lemma classify_status_inv_witness :
  let s := text_of "Exited (" ++ [1633; 1634; 1635]%N ++ text_of ") 1 hour ago" in
  classify_status (interpreter := python3) s = Ok (VInt 123) /\
  exists ds rest,
    s = text_of "Exited (" ++ ds ++ text_of ")" ++ rest /\ ds <> [] /\
    all_digits (interpreter := python3) ds = true /\
    123 = int_acc (interpreter := python3) 0 ds.
Proof.
  intros s.
  assert (Hs : classify_status (interpreter := python3) s = Ok (VInt 123))
    by (by vm_compute).
  split; [exact Hs|].
  destruct (classify_status_inv (interpreter := python3) s) as (_ & _ & Hint & _).
  destruct (Hint 123 Hs) as [_ (ds & rest & H1 & H2 & H3 & H4 & _)].
  by exists ds, rest.
Defined.

Lemma partition_spec (sep : ascii) (s : string) :
  let '(h, m, t) := partition sep s in
  (forall h' t', h <> h' +:+ String sep t') /\
  ((m = "" /\ t = "" /\ s = h) \/
   (m = String sep "" /\ s = h +:+ String sep t)).
Proof.
  induction s as [|a s IH]; cbn [partition].
  - split; [by intros [|??] ?|]. left. done.
  - destruct (Ascii.eqb_spec a sep) as [->|Hne].
    + split; [by intros [|??] ?|]. right. done.
    + destruct (partition sep s) as [[h m] t]. destruct IH as [Hno Hs].
      split.
      * intros [|b h'] t' Heq; simpl in Heq; injection Heq as Ha Hh;
          [by subst | by apply (Hno h' t')].
      * destruct Hs as [(-> & -> & ->)|(-> & ->)]; [left|right]; done.
Qed.

Section ImageReferences.
Context `{engine : Engine}.

(** X5. What [_check_image] imports for a reference [s]: nothing, or one image
    whose name holds no [:]; with a tag that is not empty when [s] is
    [name:tag], and with the tag [latest] when [s] is [name] or [name:]. *)
Theorem check_image_import_arguments (c : Client) (map_images : gset string)
    (s : string) (st : State) :
  let '(r, st') := _check_image c map_images (VStr s) st in
  st' = st \/
  exists image tag,
    trace st' = trace st ++ [call_import_image c image tag] /\
    (forall h t, image <> h +:+ String ":" t) /\
    ((tag <> "" /\ s = image +:+ ":" +:+ tag) \/
     (tag = "latest" /\ (s = image \/ s = image +:+ ":"))).
Proof.
  unfold _check_image. pose proof (partition_spec ":" s) as Hp.
  destruct (partition ":" s) as [[image sep] tag]. destruct Hp as [Hno Hs].
  case_bool_decide; [by left|].
  unfold bind, client_import_image, engine_call, ret.
  assert (Hargs :
    (forall h t, image <> h +:+ String ":" t) /\
    (((if str_truthy tag then tag else "latest") <> "" /\
      s = image +:+ ":" +:+ (if str_truthy tag then tag else "latest")) \/
     ((if str_truthy tag then tag else "latest") = "latest" /\
      (s = image \/ s = image +:+ ":")))).
  { split; [done|].
    destruct Hs as [(-> & -> & ->)|(-> & ->)]; [right; by split; [|left]|].
    destruct tag as [|a tag]; [right; by split; [|right]|].
    left. by split. }
  destruct (eng_import_image _ _ _ _) as [[[]|e] w]; right;
    exists image, (if str_truthy tag then tag else "latest"); by split.
Qed.

(** X6. After an access to the tags of a map has returned, the tags are
    cached: a further access without [force] returns the same tags, makes
    no call and changes nothing. *)
Theorem get_image_tags_twice (map_name : option string) (force : bool)
    (st : State) (tags : gset string) (st1 : State) :
  _get_image_tags map_name force st = (Ok tags, st1) ->
  _image_tags st1 !! map_name = Some tags /\
  _get_image_tags map_name false st1 = (Ok tags, st1).
Proof.
  intros H.
  assert (Hc : _image_tags st1 !! map_name = Some tags).
  { revert H. unfold _get_image_tags, bind, get.
    destruct (if negb force then _ else _) as [t|] eqn:Ht.
    - intros [= <- <-]. by destruct force.
    - rewrite get_client_eq. destruct (dict_get _ _); [|done].
      unfold client_get_image_tags, engine_call, modify, ret.
      destruct (eng_get_image_tags _ _) as [[t|e] w]; intros [= <- <-].
      simpl. apply lookup_insert_eq. }
  split; [exact Hc|]. by apply get_image_tags_cached.
Qed.

(** X7. An access that has to ask the engine, for a name that is no registered
    map, raises the error of the unknown map: no call is made and nothing
    is stored. *)
Theorem get_image_tags_unknown_map (map_name : option string) (force : bool)
    (st : State) :
  dict_get (_maps st) map_name = None ->
  (if force then True else _image_tags st !! map_name = None) ->
  _get_image_tags map_name force st =
    (Raise (ValueError ("No map found with name '" +:+ format_opt map_name +:+ "'.")),
     st).
Proof.
  intros Hmc Hmiss. unfold _get_image_tags. unfold bind at 1. unfold get at 1.
  assert (Hnone : (if negb force then _image_tags st !! map_name else None) = None).
  { destruct force; simpl; auto. }
  rewrite Hnone. unfold bind. by rewrite get_client_eq, Hmc.
Qed.

(** X8. When the map is registered, its tags are cached, and every requested
    reference is a name without a tag whose [name:latest] is among the
    cached tags, [_ensure_images] makes no call and changes nothing. *)
Theorem ensure_images_cached_noop (map_name : option string) (mc : MapClient)
    (tags : gset string) (images : list Value) (st : State) :
  dict_get (_maps st) map_name = Some mc ->
  _image_tags st !! map_name = Some tags ->
  Forall (fun v => exists s, v = VStr s /\ (forall h t, s <> h +:+ String ":" t) /\
                             s +:+ ":latest" ∈ tags) images ->
  _ensure_images map_name images st = (Ok tt, st).
Proof.
  intros Hmc Hc Himgs. unfold _ensure_images. unfold bind at 1.
  rewrite get_client_eq, Hmc. unfold bind at 1.
  rewrite (get_image_tags_cached _ _ _ Hc).
  assert (Hchecks : mapM (_check_image (client mc) tags) images st
                    = (Ok (map (fun _ => false) images), st)).
  { induction Himgs as [|v images (s & -> & Hno & Hin) _ IH]; [done|].
    cbn [mapM]. unfold bind at 1.
    rewrite (check_image_untagged _ _ _ _ Hno), bool_decide_eq_true_2 by done.
    unfold bind. by rewrite IH. }
  unfold bind. rewrite Hchecks.
  assert (Hany : any (map (fun _ : Value => false) images) = false)
    by (clear; induction images; [done|exact IHimages]).
  by rewrite Hany.
Qed.

End ImageReferences.

(** ** Running a list of actions *)

Section ActionList.
Context `{engine : Engine} `{imports : Imports} `{interpreter : Interpreter}.

(** Preparing [a_kwargs] makes no call; at most it adds a dictionary. *)
Lemma merge_kwargs_frame (apply_kwargs : option (gmap string Dict))
    (action : string) (kwargs : option nat) (st : State) :
  exists h, (merge_kwargs apply_kwargs action kwargs st).2
            = set_heap (heap st ++ h) st.
Proof.
  assert (Hst : st = set_heap (heap st ++ []) st)
    by (rewrite app_nil_r; by destruct st).
  assert (Hnew : forall d, exists h,
            (new_dict d st).2 = set_heap (heap st ++ h) st) by (by eexists).
  assert (Halloc : forall d c, exists h,
    ((a_kwargs <- new_dict d ;; dict_update a_kwargs c ;; ret a_kwargs) st).2
    = set_heap (heap st ++ h) st).
  { intros d c. exists [c ∪ d]. unfold bind, new_dict, dict_update, modify, ret.
    simpl. rewrite deref_alloc. unfold set_heap. simpl. f_equal.
    rewrite insert_app_r_alt by lia. by rewrite Nat.sub_diag. }
  unfold merge_kwargs. destruct apply_kwargs as [overrides|]; [|by exists []].
  unfold bind at 1. unfold get at 1.
  destruct (dict_truthy (overrides !! action)).
  - destruct kwargs as [l|]; [|apply Halloc].
    destruct (kwargs_truthy (Some l) st); [|apply Halloc].
    unfold bind at 1. unfold bind at 1. unfold get at 1. apply Halloc.
  - destruct kwargs as [l|]; [|apply Hnew].
    destruct (kwargs_truthy (Some l) st); [by exists []|apply Hnew].
Qed.

(** X9. The keyword arguments of the call when the caller gave overrides for
    the action: for every key, the value of the overrides when they have
    the key, and the value of the action's own dictionary otherwise. *)
Theorem merged_kwargs_lookup (overrides : gmap string Dict) (action : string)
    (kwargs : option nat) (c : Dict) (st : State) :
  overrides !! action = Some c -> c <> ∅ ->
  exists l st1,
    merge_kwargs (Some overrides) action kwargs st = (Ok l, st1) /\
    (length (heap st) <= l)%nat /\
    forall key,
      deref l st1 !! key =
        match c !! key with
        | Some v => Some v
        | None => match kwargs with
                  | Some l0 => deref l0 st !! key
                  | None => None
                  end
        end.
Proof.
  intros Hc Hne. eexists _, _. split; [by apply merge_kwargs_overrides|].
  split; [done|]. intros key. rewrite deref_alloc.
  destruct (c !! key) as [v|] eqn:Hk.
  - by apply merge_override_wins.
  - rewrite merge_base_kept by done. by destruct kwargs.
Qed.

(** X11. The actions of a list are run one after the other: running [l1 ++ l2]
    is running [l1] and then, unless [l1] ended with an error, [l2] from
    the state [l1] left; the values yielded are those of [l1] followed by
    those of [l2]. *)
Theorem run_action_list_app (l1 l2 : list ContainerAction)
    (apply_kwargs : option (gmap string Dict)) (raise_on_error : bool) (st : State) :
  run_action_list (l1 ++ l2) apply_kwargs raise_on_error st =
    match run_action_list l1 apply_kwargs raise_on_error st with
    | (ys1, Ok _, st1) =>
        let '(ys2, r, st2) := run_action_list l2 apply_kwargs raise_on_error st1 in
        (ys1 ++ ys2, r, st2)
    | (ys1, Raise e, st1) => (ys1, Raise e, st1)
    end.
Proof.
  revert st. induction l1 as [|a l1 IH]; intros st; cbn [app run_action_list].
  - by destruct (run_action_list l2 _ _ st) as [[ys r] st2].
  - destruct (run_action a apply_kwargs raise_on_error st) as [[y|e] st1]; [|done].
    rewrite IH.
    destruct (run_action_list l1 _ _ st1) as [[ys1 [[]|e]] st2]; [|done].
    destruct (run_action_list l2 _ _ st2) as [[ys2 r] st3].
    by destruct y.
Qed.

(** X12. An action for a map that is not registered ends the run with the
    error of the unknown map: nothing has been called or changed for it,
    and the actions after it are not run. *)
Theorem run_action_list_unknown_map (action : string) (map_name : option string)
    (container : string) (kwargs : option nat) (rest : list ContainerAction)
    (apply_kwargs : option (gmap string Dict)) (raise_on_error : bool) (st : State) :
  dict_get (_maps st) map_name = None ->
  run_action_list ((action, map_name, container, kwargs) :: rest)
    apply_kwargs raise_on_error st =
  ([], Raise (ValueError ("No map found with name '" +:+ format_opt map_name +:+ "'.")),
   st).
Proof.
  intros Hmc. cbn [run_action_list]. unfold run_action. unfold bind at 1.
  by rewrite get_client_eq, Hmc.
Qed.

(** X13. [apply_kwargs] left at its default [None]: an empty list of actions is
    run without error, and the first action of a list (for a registered
    map) ends the run with an [AttributeError], before any call. *)
Theorem run_action_list_without_apply_kwargs (action : string)
    (map_name : option string) (container : string) (kwargs : option nat)
    (rest : list ContainerAction) (raise_on_error : bool) (mc : MapClient)
    (st : State) :
  dict_get (_maps st) map_name = Some mc ->
  run_action_list [] None raise_on_error st = ([], Ok tt, st) /\
  run_action_list ((action, map_name, container, kwargs) :: rest)
    None raise_on_error st = ([], Raise (AttributeError "get"), st).
Proof.
  intros Hmc. split; [done|]. cbn [run_action_list]. unfold run_action.
  unfold bind at 1. by rewrite get_client_eq, Hmc.
Qed.

(** X14. An action that is in none of the tuples [ACTIONS_*] ends the run with
    a [ValueError]; no call has been made for it, and no dictionary that
    existed has been changed. *)
Theorem run_action_list_unrecognized (action : string) (map_name : option string)
    (container : string) (kwargs : option nat) (rest : list ContainerAction)
    (overrides : gmap string Dict) (raise_on_error : bool) (mc : MapClient)
    (st : State) :
  branch_of action = branch_else ->
  dict_get (_maps st) map_name = Some mc ->
  exists h,
    run_action_list ((action, map_name, container, kwargs) :: rest)
      (Some overrides) raise_on_error st =
    ([], Raise (ValueError ("Unrecognized action " +:+ action +:+ ".")),
     set_heap (heap st ++ h) st).
Proof.
  intros Hb Hmc.
  destruct (merge_kwargs_frame (Some overrides) action kwargs st) as [h Hh].
  exists h. cbn [run_action_list]. unfold run_action. unfold bind at 1.
  rewrite get_client_eq, Hmc. unfold bind at 1.
  assert (Hok : exists l, (merge_kwargs (Some overrides) action kwargs st).1 = Ok l).
  { unfold merge_kwargs, bind, get.
    destruct (dict_truthy _), kwargs as [l|]; try destruct (kwargs_truthy _ _);
      unfold new_dict, dict_update, modify, ret; simpl; eauto. }
  destruct Hok as [l Hl].
  destruct (merge_kwargs (Some overrides) action kwargs st) as [r st1].
  simpl in Hh, Hl. subst r st1. unfold dispatch_action. by rewrite Hb.
Qed.

(** X15. A create or a prepare action whose keyword arguments hold no [image]
    ends the run with [KeyError('image')] before any call on the engine. *)
Theorem run_action_list_missing_image (action : string) (map_name : option string)
    (container : string) (kwargs : option nat) (rest : list ContainerAction)
    (apply_kwargs : option (gmap string Dict)) (raise_on_error : bool)
    (mc : MapClient) (st : State) (l : nat) (st1 : State) :
  branch_of action = branch_create \/ branch_of action = branch_prepare ->
  dict_get (_maps st) map_name = Some mc ->
  merge_kwargs apply_kwargs action kwargs st = (Ok l, st1) ->
  deref l st1 !! "image" = None ->
  run_action_list ((action, map_name, container, kwargs) :: rest)
    apply_kwargs raise_on_error st = ([], Raise (KeyError "image"), st1) /\
  trace st1 = trace st /\ world st1 = world st.
Proof.
  intros Hb Hmc Hk Himg. split.
  - cbn [run_action_list]. unfold run_action. unfold bind at 1.
    rewrite get_client_eq, Hmc. unfold bind at 1. rewrite Hk.
    unfold dispatch_action.
    destruct Hb as [-> | ->]; unfold bind at 1; unfold dict_pop; by rewrite Himg.
  - destruct (merge_kwargs_frame apply_kwargs action kwargs st) as [h Hh].
    rewrite Hk in Hh. simpl in Hh. by subst st1.
Qed.

(** X16. A start action has no tolerance: whatever error the engine raises for
    it, a 404 included and whatever [raise_on_error] is, ends the run; the
    actions after it are not run. *)
Theorem run_action_list_start_error (action : string) (map_name : option string)
    (container : string) (kwargs : option nat) (rest : list ContainerAction)
    (apply_kwargs : option (gmap string Dict)) (raise_on_error : bool)
    (mc : MapClient) (st : State) (l : nat) (st1 : State) (e : Exn) (w : World) :
  branch_of action = branch_start ->
  dict_get (_maps st) map_name = Some mc ->
  merge_kwargs apply_kwargs action kwargs st = (Ok l, st1) ->
  eng_start (client mc) (VStr container) (deref l st1) (world st1) = (Raise e, w) ->
  run_action_list ((action, map_name, container, kwargs) :: rest)
    apply_kwargs raise_on_error st =
  ([], Raise e,
   set_world w
     (set_trace (trace st1 ++ [call_start (client mc) (VStr container) (deref l st1)])
        st1)).
Proof.
  intros Hb Hmc Hk He. cbn [run_action_list]. unfold run_action.
  unfold bind at 1. rewrite get_client_eq, Hmc. unfold bind at 1. rewrite Hk.
  unfold dispatch_action. rewrite Hb.
  unfold bind, get, client_start, engine_call. by rewrite He.
Qed.

End ActionList.

(** ** What the turns of the loop yield and call *)

Ltac bind_ok H :=
  apply bind_inv in H as [(? & ? & _ & H)|(? & _ & H)]; [|discriminate H].

Section Yields.
Context `{engine : Engine} `{imports : Imports} `{interpreter : Interpreter}.

#[local] Instance same_dicts_preorder : PreOrder same_dicts.
Proof. split; [by intros st | intros a b c; unfold same_dicts; congruence]. Qed.

Lemma run_action_yield (a : ContainerAction)
    (apply_kwargs : option (gmap string Dict)) (raise_on_error : bool)
    (st : State) (y : option Dict) (st' : State) :
  run_action a apply_kwargs raise_on_error st = (Ok y, st') ->
  match y with Some _ => true | None => false end = yields_value a.
Proof.
  destruct a as [[[action map_name] container] kwargs]. unfold run_action, yields_value.
  cbn [fst]. intros H. bind_ok H. bind_ok H. unfold dispatch_action in H.
  destruct (branch_of action).
  - bind_ok H. bind_ok H. bind_ok H. bind_ok H. by injection H as <- _.
  - bind_ok H. bind_ok H. by injection H as <- _.
  - bind_ok H. bind_ok H. bind_ok H. bind_ok H.
    match type of H with context [let '(_, _) := ?x in _] => destruct x as [[? ?] ?] end.
    bind_ok H. by injection H as <- _.
  - bind_ok H. bind_ok H. by injection H as <- _.
  - bind_ok H. bind_ok H. by injection H as <- _.
  - discriminate H.
Qed.

(** X17. Only create actions yield: a run yields no more values than the list
    has create actions, and exactly one for each of them when it ends
    without an error. *)
Theorem run_action_list_yields (actions : list ContainerAction)
    (apply_kwargs : option (gmap string Dict)) (raise_on_error : bool) (st : State) :
  let '(ys, r, _) := run_action_list actions apply_kwargs raise_on_error st in
  (length ys <= length (filter yields_value actions))%nat /\
  (r = Ok tt -> length ys = length (filter yields_value actions)).
Proof.
  revert st. induction actions as [|a actions IH]; intros st; cbn [run_action_list].
  - by split.
  - destruct (run_action a apply_kwargs raise_on_error st) as [[y|e] st1] eqn:Ha.
    + apply run_action_yield in Ha. specialize (IH st1).
      destruct (run_action_list actions _ _ st1) as [[ys r] st2].
      destruct IH as [Hle Heq]. rewrite filter_cons.
      destruct y, (yields_value a); try discriminate Ha;
        [rewrite decide_True by done | rewrite decide_False by (by intros [])];
        simpl; split; try lia; intros Hr; specialize (Heq Hr); lia.
    + split; [simpl; lia | by intros [=]].
Qed.

(** X18. A create action whose keyword arguments hold an image, once the image
    is ensured: [create_container] is called with the image, the name of
    the container and the keyword arguments without [image]; what the
    engine returns is yielded, and its error is the error of the turn. *)
Theorem create_action_call (action : string) (map_name : option string)
    (container : string) (kwargs : option nat)
    (apply_kwargs : option (gmap string Dict)) (raise_on_error : bool)
    (mc : MapClient) (st : State) (l : nat) (st1 : State) (image : Value)
    (st3 : State) :
  branch_of action = branch_create ->
  dict_get (_maps st) map_name = Some mc ->
  merge_kwargs apply_kwargs action kwargs st = (Ok l, st1) ->
  deref l st1 !! "image" = Some image ->
  _ensure_images map_name [image]
    (set_heap (<[l := delete "image" (deref l st1)]> (heap st1)) st1) = (Ok tt, st3) ->
  run_action (action, map_name, container, kwargs) apply_kwargs raise_on_error st =
    let kw := delete "image" (deref l st1) in
    let '(r, w) := eng_create_container (client mc) image (Some container) kw (world st3) in
    (match r with Ok created => Ok (Some created) | Raise e => Raise e end,
     set_world w
       (set_trace
          (trace st3 ++ [call_create_container (client mc) image (Some container) kw])
          st3)).
Proof.
  intros Hb Hmc Hk Himg He. unfold run_action.
  unfold bind at 1. rewrite get_client_eq, Hmc. unfold bind at 1. rewrite Hk.
  unfold dispatch_action. rewrite Hb.
  unfold bind at 1. unfold dict_pop. rewrite Himg.
  unfold bind at 1. rewrite He. unfold bind at 1. unfold get at 1.
  assert (Hl : (l < length (heap st1))%nat).
  { apply lookup_lt_is_Some. unfold deref in Himg.
    destruct (heap st1 !! l); [done|]. simpl in Himg. by rewrite lookup_empty in Himg. }
  assert (Hkw : deref l st3 = delete "image" (deref l st1)).
  { pose proof (preserves_ensure_images same_dicts ltac:(done) ltac:(done)
                  ltac:(done) map_name [image]
                  (set_heap (<[l := delete "image" (deref l st1)]> (heap st1)) st1))
      as Hh.
    rewrite He in Hh. unfold same_dicts in Hh. simpl in Hh.
    unfold deref at 1. rewrite Hh. by rewrite list_lookup_insert_eq. }
  rewrite Hkw. unfold bind, client_create_container, engine_call, ret.
  by destruct (eng_create_container _ _ _ _ _) as [[d|e] w].
Qed.

(** X10. With overrides for the action, running it changes none of the
    dictionaries that existed before: the dictionary the action carries
    is copied, and only the copy is updated and loses its image. *)
Theorem overridden_action_keeps_dictionaries (overrides : gmap string Dict)
    (action : string) (map_name : option string) (container : string)
    (kwargs : option nat) (c : Dict) (roe : bool) (st : State) (l : nat) :
  overrides !! action = Some c -> c <> ∅ -> (l < length (heap st))%nat ->
  heap (run_action (action, map_name, container, kwargs) (Some overrides) roe st).2
    !! l = heap st !! l.
Proof. apply run_action_overridden_keeps_kwargs. Qed.

End Yields.

(** ** Waiting for a container *)

Section Waiting.
Context `{engine : Engine} `{imports : Imports} `{interpreter : Interpreter}.


(** X19. [wait] for a registered map: the engine is asked to wait for the
    container, and after that, when [log] is set and the waiting has
    returned without error, and only then, to push the logs of the
    container.  An error of the waiting is raised, and then no logs are
    pushed; otherwise the outcome is that of pushing the logs, or [None]
    when [log] is not set.  Nothing but the engine changes. *)
Theorem wait_calls (container : string) (instance map_name : option string)
    (log : bool) (mc : MapClient) (st : State) :
  dict_get (_maps st) map_name = Some mc ->
  let c_name := cname (str_or map_name (_default_map st)) container instance in
  let waiting := call_wait (client mc) (VStr c_name) in
  let logs := call_push_container_logs (client mc) (VStr c_name) in
  let '(r, st') := wait container instance map_name log st in
  exists calls,
    st' = set_world (world st') (set_trace (trace st ++ calls) st) /\
    (calls = [waiting] \/ calls = [waiting; logs]) /\
    (logs ∈ calls <->
     log = true /\
     exists w, eng_wait (client mc) (VStr c_name) (world st) = (Ok tt, w)) /\
    (forall e w,
       eng_wait (client mc) (VStr c_name) (world st) = (Raise e, w) ->
       r = Raise e /\ world st' = w) /\
    (forall w,
       eng_wait (client mc) (VStr c_name) (world st) = (Ok tt, w) ->
       if log
       then (r, world st') = eng_push_container_logs (client mc) (VStr c_name) w
       else r = Ok tt /\ world st' = w).
Proof.
  intros Hmc c_name waiting logs. unfold wait. unfold bind at 1.
  rewrite get_client_eq, Hmc. unfold bind at 1. unfold resolve_cname at 1.
  unfold bind at 1. unfold get at 1. unfold ret at 1. fold c_name.
  unfold bind, client_wait, client_push_container_logs, engine_call.
  fold waiting logs.
  assert (Hno : logs ∉ [waiting]).
  { intros Hin. apply elem_of_cons in Hin as [Hin|Hin]; [discriminate Hin|].
    by apply elem_of_nil in Hin. }
  destruct (eng_wait _ _ _) as [[[]|e] w].
  - destruct log.
    + cbn [world trace set_world set_trace].
      destruct (eng_push_container_logs _ _ _) as [r w2] eqn:Hlogs.
      exists [waiting; logs]. split_and!.
      * cbn [world trace set_world set_trace]. by rewrite <- app_assoc.
      * by right.
      * split; [intros _; split; [done | by exists w]|].
        intros _. right. by left.
      * intros e w' [=].
      * by intros w' [= <-].
    + exists [waiting]. split_and!; [done | by left | | by intros e w' [=] |].
      * split; [done | by intros [[=] _]].
      * by intros w' [= <-].
  - exists [waiting]. split_and!; [done | by left | | | by intros w' [=]].
    + split; [done | by intros [_ [w' [=]]]].
    + by intros e' w' [= <- <-].
Qed.


End Waiting.

(** ** Listing, helper containers, and a failing status query *)

Section Edges.
Context `{engine : Engine} `{imports : Imports} `{interpreter : Interpreter}.

(** X21. [list_persistent_containers] only reads: whatever the argument, it
    makes no call and changes nothing.  A name that is not empty and is no
    registered map gives a [KeyError]; the empty name is taken as no name
    and lists all maps. *)
Theorem list_persistent_containers_reads_only (map_name : option string)
    (st : State) :
  (list_persistent_containers map_name st).2 = st /\
  (forall m, map_name = Some m -> m <> "" ->
     dict_get (_maps st) map_name = None ->
     list_persistent_containers map_name st = (Raise (KeyError m), st)) /\
  list_persistent_containers (Some "") st = list_persistent_containers None st.
Proof.
  split_and!.
  - unfold list_persistent_containers, bind, get, ret, raise.
    destruct map_name as [m|]; [|done].
    destruct (str_truthy m); [|done]. by destruct (dict_get _ _).
  - intros m -> Hm Hmc. unfold list_persistent_containers.
    assert (Ht : str_truthy m = true) by (destruct m; [done|reflexivity]).
    rewrite Ht. unfold bind, get. by rewrite Hmc.
  - reflexivity.
Qed.

(** X22. The outcome of one run of a helper container.  When the creation
    raises, or what it returns has no [Id], nothing more is called: no
    start and no removal.  Otherwise the run returns without error only
    after all of start, wait, push of the logs and removal have been
    called, in this order. *)
Theorem run_and_dispose_outcome (c : Client)
    (image entrypoint command user volumes_from : Value) (st : State) :
  let kw : Dict :=
    <["entrypoint" := entrypoint]>
      (<["command" := command]> (<["user" := user]> ∅)) in
  let create := call_create_container c image None kw in
  let '(r, st') := _run_and_dispose c image entrypoint command user volumes_from st in
  match eng_create_container c image None kw (world st) with
  | (Raise e, _) => r = Raise e /\ trace st' = trace st ++ [create]
  | (Ok d, _) =>
      match d !! "Id" with
      | None => r = Raise (KeyError "Id") /\ trace st' = trace st ++ [create]
      | Some tmp =>
          r = Ok tt ->
          trace st' =
            trace st ++
              [create;
               call_start c tmp (<["volumes_from" := volumes_from]> ∅);
               call_wait c tmp;
               call_push_container_logs c tmp;
               call_remove_container c tmp ∅]
      end
  end.
Proof.
  intros kw create. unfold _run_and_dispose. fold kw.
  unfold bind at 1. unfold client_create_container, engine_call.
  destruct (eng_create_container c image None kw (world st)) as [[d|e] w]; [|done].
  unfold bind at 1. unfold getitem.
  destruct (d !! "Id") as [tmp|]; [|done].
  unfold ret at 1.
  unfold try_finally, bind, client_start, client_wait, client_push_container_logs,
    client_remove_container, engine_call. simpl.
  destruct (eng_start c tmp _ w) as [[[]|e1] w1]; simpl.
  - destruct (eng_wait c tmp w1) as [[[]|e2] w2]; simpl.
    + destruct (eng_push_container_logs c tmp w2) as [[[]|e3] w3]; simpl;
        destruct (eng_remove_container c tmp ∅ w3) as [[[]|e4] w4]; simpl;
        intros [=]. by rewrite <- !app_assoc.
    + destruct (eng_remove_container c tmp ∅ w2) as [[[]|e4] w4]; simpl; by intros [=].
  - destruct (eng_remove_container c tmp ∅ w1) as [[[]|e4] w4]; simpl; by intros [=].
Qed.

(** X23. [get_policy] when the status query fails: the error is raised.  A
    policy that existed keeps the status it had; when there was none, the
    policy has been constructed all the same and is kept, without a
    status. *)
Theorem get_policy_status_failure (st : State) (e : Exn) :
  (forall p st2,
     _policy st = Some p -> _get_status st = (Raise e, st2) ->
     get_policy st = (Raise e, st2) /\
     policies st2 = policies st /\ _policy st2 = Some p) /\
  (_policy st = None -> (_get_status st).1 = Raise e ->
   exists st2,
     get_policy st = (Raise e, st2) /\
     _policy st2 = Some (length (policies st)) /\
     policies st2 =
       policies st ++
         [{| policy_maps := map container_map (dict_values (_maps st));
             status := None |}]).
Proof.
  split.
  - intros p st2 Hp Hs. unfold get_policy, ensure_policy.
    unfold bind at 1. unfold bind at 1. unfold get at 1. rewrite Hp.
    unfold ret at 1. unfold bind at 1. rewrite Hs. split; [done|].
    pose proof (get_status_same_policy st) as (_ & Hp2 & Hs2).
    rewrite Hs in Hp2, Hs2. simpl in Hp2, Hs2. split; congruence.
  - intros Hp Hs. unfold get_policy, ensure_policy.
    unfold bind at 1. unfold bind at 1. unfold get at 1. rewrite Hp.
    unfold bind at 1. unfold get at 1. unfold bind at 1. unfold new_policy at 1.
    unfold modify at 1.
    set (st1 := set_policy _ (set_policies _ st)).
    pose proof (get_status_world st1 st eq_refl eq_refl) as Hres.
    rewrite Hs in Hres.
    pose proof (get_status_same_policy st1) as (_ & Hp2 & Hs2).
    unfold bind at 1.
    destruct (_get_status st1) as [[s|e'] st2]; simpl in Hres, Hp2, Hs2; [done|].
    injection Hres as ->. exists st2. by split_and!.
Qed.

End Edges.

(** ** What holds over the life of an orchestrator *)

Section Lifetime.
Context `{engine : Engine} `{imports : Imports} `{interpreter : Interpreter}.

Section Steps.
Context (R : relation State) `{!PreOrder R}.
Hypothesis R_world : forall w st, R st (set_world w st).
Hypothesis R_trace : forall t st, R st (set_trace t st).
Hypothesis R_heap : forall h st, R st (set_heap h st).
Hypothesis R_policies : forall p st, R st (set_policies p st).
Hypothesis R_policy : forall p st, R st (set_policy p st).
Hypothesis R_tags : forall m f, preserves R (_get_image_tags m f).
Hypothesis R_refresh : forall st, R st (set_image_tags ∅ st).

Lemma steps_ensure_images map_name images :
  preserves R (_ensure_images map_name images).
Proof.
  pose proof (preserves_get_client R).
  pose proof (preserves_check_image R R_world R_trace).
  unfold _ensure_images. frame.
Qed.

Lemma steps_dispatch_action c action map_name container l roe :
  preserves R (dispatch_action c action map_name container l roe).
Proof.
  pose proof steps_ensure_images.
  pose proof (preserves_dict_pop R R_heap).
  pose proof (preserves_adjust_permissions R R_world R_trace).
  pose proof (preserves_bind_adjust_kwargs R).
  pose proof (preserves_on_api_error R R_trace).
  pose proof (fun A (f : State -> A) => preserves_get R f).
  unfold dispatch_action. frame.
Qed.

Lemma steps_run_action a apply_kwargs roe :
  preserves R (run_action a apply_kwargs roe).
Proof.
  pose proof steps_dispatch_action.
  pose proof (preserves_get_client R).
  pose proof (preserves_merge_kwargs R R_heap).
  destruct a as [[[action map_name] container] kwargs].
  unfold run_action. frame.
Qed.

Lemma steps_run_action_list actions apply_kwargs roe st :
  R st (run_action_list actions apply_kwargs roe st).2.
Proof.
  revert st. induction actions as [|a rest IH]; intros st; cbn [run_action_list].
  - reflexivity.
  - pose proof (steps_run_action a apply_kwargs roe st) as Ha.
    destruct (run_action a apply_kwargs roe st) as [[y|e] st1]; simpl in Ha; [|done].
    specialize (IH st1).
    destruct (run_action_list rest apply_kwargs roe st1) as [[ys r] st2].
    simpl in *. by etrans.
Qed.

Lemma steps_get_policy : preserves R get_policy.
Proof.
  pose proof (preserves_get_status R R_world R_trace).
  pose proof (fun A (f : State -> A) => preserves_get R f).
  assert (forall maps, preserves R (new_policy maps)) by (intros maps st; apply R_policies).
  assert (forall p, preserves R (modify (set_policy p))) by (intros p st; apply R_policy).
  assert (forall p s, preserves R (set_status p s)) by (intros p s st; apply R_policies).
  unfold get_policy, ensure_policy. frame.
Qed.

Lemma exec_step (o : Op) (st : State) :
  is_default_map_setter o = false -> R st (exec o st).
Proof.
  destruct o; intros Ho; cbn [exec]; try discriminate Ho.
  - apply steps_get_policy.
  - apply steps_run_action_list.
  - apply steps_ensure_images.
  - apply R_tags.
  - by apply (preserves_wait R).
  - by apply (preserves_wait_and_remove R).
  - apply R_refresh.
  - apply (preserves_list_persistent_containers R).
  - etrans; [apply R_heap | apply R_world].
Qed.

Lemma lifetime_step (ops : list Op) (st : State) :
  Forall (fun o => forall st, R st (exec o st)) ops -> R st (lifetime ops st).
Proof.
  intros Hops. revert st. induction Hops as [|o ops Ho _ IH]; intros st.
  - reflexivity.
  - cbn [lifetime fold_left]. etrans; [apply Ho | apply IH].
Qed.
End Steps.

#[local] Instance cache_step_preorder : PreOrder cache_step.
Proof.
  split.
  - intros st. split; [done|]. by left.
  - intros a b c [Hm1 H1] [Hm2 H2]. split; [congruence|].
    intros k Hk. destruct (H2 k Hk) as [Hb|Hb]; [by apply H1|].
    right. by rewrite <- Hm1.
Qed.

#[local] Instance same_default_map_preorder : PreOrder same_default_map.
Proof. split; [by intros st | intros a b c; unfold same_default_map; congruence]. Qed.

Lemma get_image_tags_cache_step map_name force :
  preserves cache_step (_get_image_tags map_name force).
Proof.
  intros st. unfold _get_image_tags, bind, get.
  destruct (if negb force then _ else _); [reflexivity|].
  rewrite get_client_eq. destruct (dict_get (_maps st) map_name) as [mc|] eqn:Hmc;
    [|reflexivity].
  unfold client_get_image_tags, engine_call, modify, ret.
  destruct (eng_get_image_tags _ _) as [[tags|e] w]; simpl.
  - split; [done|]. intros k Hk. simpl in Hk.
    destruct (decide (map_name = k)) as [<-|Hne]; [right; by rewrite Hmc|].
    left. by rewrite lookup_insert_ne in Hk.
  - split; [done|]. by left.
Qed.

Lemma cache_step_same (st st' : State) :
  _maps st' = _maps st -> _image_tags st' = _image_tags st -> cache_step st st'.
Proof. intros Hm Hc. split; [done|]. intros k Hk. left. by rewrite <- Hc. Qed.

Lemma exec_cache_step (o : Op) (st : State) : cache_step st (exec o st).
Proof.
  destruct (is_default_map_setter o) eqn:Ho.
  - destruct o; try discriminate Ho. by apply cache_step_same.
  - apply (exec_step cache_step);
      [by intros; apply cache_step_same.. | | | exact Ho].
    + apply get_image_tags_cache_step.
    + intros st0. split; [done|]. intros k Hk. simpl in Hk.
      rewrite lookup_empty in Hk. by destruct Hk.
Qed.

Lemma lifetime_cache_step (ops : list Op) (st : State) :
  cache_step st (lifetime ops st).
Proof.
  apply (lifetime_step cache_step). apply Forall_forall. intros o _.
  apply exec_cache_step.
Qed.

(** X24. No operation changes the registry: after any sequence of operations it
    holds the maps and clients it held before. *)
Theorem registry_never_changes (ops : list Op) (st : State) :
  _maps (lifetime ops st) = _maps st.
Proof. apply lifetime_cache_step. Qed.

(** X25. Over the whole life of an orchestrator, every map that has cached
    image tags is a registered map. *)
Theorem cache_keys_registered (w : World) (arg : ContainerMapsArg) (dc : Client)
    (st0 : State) (ops : list Op) :
  __init__ w arg dc = Ok st0 ->
  cache_registered (lifetime ops st0).
Proof.
  intros Hinit k Hk.
  destruct (lifetime_cache_step ops st0) as [Hm Hstep].
  rewrite Hm. destruct (Hstep k Hk) as [Hc|Hc]; [|done].
  assert (Hempty : _image_tags st0 = ∅)
    by (destruct arg; [injection Hinit as <-.. | discriminate Hinit]; done).
  rewrite Hempty, lookup_empty in Hc. by destruct Hc.
Qed.

(** X26. The default map is what the setter of [default_map] last stored: no
    other operation changes it. *)
Theorem default_map_last_setter (value : option string) (ops : list Op) (st : State) :
  Forall (fun o => is_default_map_setter o = false) ops ->
  _default_map (lifetime (op_default_map_setter value :: ops) st) = value /\
  _default_map (lifetime ops st) = _default_map st.
Proof.
  intros Hops.
  assert (Hkeep : forall st0, same_default_map st0 (lifetime ops st0)).
  { intros st0. apply (lifetime_step same_default_map).
    eapply Forall_impl; [exact Hops|]. intros o Ho st1. cbn beta in Ho.
    apply (exec_step same_default_map); try done.
    intros m f. by apply (preserves_get_image_tags same_default_map). }
  split; [|apply Hkeep].
  change (lifetime (op_default_map_setter value :: ops) st)
    with (lifetime ops (exec (op_default_map_setter value) st)).
  pose proof (Hkeep (exec (op_default_map_setter value) st)) as H.
  unfold same_default_map in H. by rewrite H.
Qed.

End Lifetime.

(** * The further properties on the simulated engine *)

Lemma get_image_tags_twice_witness :
  let st := sim_state (sim_world {["a:latest"]}) in
  let st1 := (_get_image_tags (Some "m") false st).2 in
  trace st1 = [call_get_image_tags 0%nat] /\
  _get_image_tags (Some "m") false st1 = (Ok {["a:latest"]}, st1).
Proof.
  intros st st1. split; [reflexivity|].
  exact (proj2 (get_image_tags_twice (Some "m") false st {["a:latest"]} st1 eq_refl)).
Defined.

Lemma get_image_tags_unknown_map_witness :
  _get_image_tags (Some "x") true (sim_state (sim_world ∅)) =
    (Raise (ValueError "No map found with name 'x'."), sim_state (sim_world ∅)).
Proof.
  exact (get_image_tags_unknown_map (Some "x") true (sim_state (sim_world ∅)) eq_refl I).
Defined.

Lemma no_colon_a : forall h t : string, "a" <> h +:+ String ":" t.
Proof. intros [|? [|? ?]] t H; discriminate H. Qed.

Lemma no_colon_b : forall h t : string, "b" <> h +:+ String ":" t.
Proof. intros [|? [|? ?]] t H; discriminate H. Qed.

Lemma ensure_images_cached_noop_witness :
  let st := sim_cached (sim_world ∅) ({["a:latest"]} ∪ {["b:latest"]}) in
  _ensure_images (Some "m") [VStr "a"; VStr "b"] st = (Ok tt, st).
Proof.
  intros st.
  apply (ensure_images_cached_noop (Some "m")
           {| container_map := sim_map; client := 0%nat |}
           ({["a:latest"]} ∪ {["b:latest"]}));
    [reflexivity | reflexivity |].
  repeat constructor.
  - exists "a". split_and!; [done | apply no_colon_a | set_solver].
  - exists "b". split_and!; [done | apply no_colon_b | set_solver].
Defined.

Lemma merged_kwargs_lookup_witness :
  exists l st1,
    merge_kwargs (Some sim_override) "create" (Some 0%nat) sim_with_action = (Ok l, st1) /\
    deref l st1 !! "user" = Some (VStr "app") /\
    deref l st1 !! "image" = Some (VStr "ubuntu").
Proof.
  destruct (merged_kwargs_lookup sim_override "create" (Some 0%nat)
              {["user" := VStr "app"]} sim_with_action eq_refl)
    as (l & st1 & Hm & _ & Hk).
  { intros H. by apply (f_equal (fun d : Dict => d !! "user")) in H. }
  exists l, st1. split; [exact Hm|]. rewrite !Hk.
  split; reflexivity.
Defined.

Lemma overridden_action_keeps_dictionaries_witness :
  heap (run_action (imports := sim_imports) ("create", Some "m", "m.web", Some 0%nat)
          (Some sim_override) false sim_with_action).2 !! 0%nat
  = Some (<["image" := VStr "ubuntu"]> {["user" := VStr "root"]}).
Proof.
  rewrite (overridden_action_keeps_dictionaries (imports := sim_imports) sim_override
             "create" (Some "m") "m.web" (Some 0%nat) {["user" := VStr "app"]}
             false sim_with_action 0%nat eq_refl).
  - reflexivity.
  - intros H. by apply (f_equal (fun d : Dict => d !! "user")) in H.
  - simpl. lia.
Defined.

Lemma run_action_list_unknown_map_witness :
  run_action_list (imports := sim_imports)
    [("start", Some "x", "x.web", None); ("stop", Some "m", "m.web", None)]
    (Some ∅) true (sim_state (sim_world ∅))
  = ([], Raise (ValueError "No map found with name 'x'."), sim_state (sim_world ∅)).
Proof.
  exact (run_action_list_unknown_map (imports := sim_imports) "start" (Some "x")
           "x.web" None [("stop", Some "m", "m.web", None)] (Some ∅) true
           (sim_state (sim_world ∅)) eq_refl).
Defined.

Lemma run_action_list_without_apply_kwargs_witness :
  run_action_list (imports := sim_imports) [("stop", Some "m", "m.web", None)]
    None false (sim_state (sim_world ∅))
  = ([], Raise (AttributeError "get"), sim_state (sim_world ∅)).
Proof.
  exact (proj2 (run_action_list_without_apply_kwargs (imports := sim_imports)
                  "stop" (Some "m") "m.web" None [] false
                  {| container_map := sim_map; client := 0%nat |}
                  (sim_state (sim_world ∅)) eq_refl)).
Defined.

Lemma run_action_list_unrecognized_witness :
  exists h,
    run_action_list (imports := sim_imports)
      [("restart", Some "m", "m.web", None); ("stop", Some "m", "m.web", None)]
      (Some ∅) false (sim_state (sim_world ∅))
    = ([], Raise (ValueError "Unrecognized action restart."),
       set_heap ([] ++ h) (sim_state (sim_world ∅))).
Proof.
  exact (run_action_list_unrecognized (imports := sim_imports) "restart" (Some "m")
           "m.web" None [("stop", Some "m", "m.web", None)] ∅ false
           {| container_map := sim_map; client := 0%nat |}
           (sim_state (sim_world ∅)) eq_refl eq_refl).
Defined.

Lemma run_action_list_missing_image_witness :
  let st := sim_state (sim_world ∅) in
  run_action_list (imports := sim_imports) [("create", Some "m", "m.web", None)]
    (Some ∅) false st
  = ([], Raise (KeyError "image"), set_heap [∅] st).
Proof.
  intros st.
  exact (proj1 (run_action_list_missing_image (imports := sim_imports) "create"
                  (Some "m") "m.web" None [] (Some ∅) false
                  {| container_map := sim_map; client := 0%nat |} st 0%nat
                  (set_heap [∅] st) (or_introl eq_refl) eq_refl eq_refl eq_refl)).
Defined.

Lemma run_action_list_start_error_witness :
  let st := sim_state sim_start_fails in
  run_action_list (imports := sim_imports)
    [("start", Some "m", "m.web", None); ("start", Some "m", "m.db", None)]
    (Some ∅) false st
  = ([], Raise (APIError 500 "start failed"),
     set_trace [call_start 0%nat (VStr "m.web") ∅] (set_heap [∅] st)).
Proof.
  intros st.
  exact (run_action_list_start_error (engine := sim_engine) (imports := sim_imports)
           "start" (Some "m") "m.web" None [("start", Some "m", "m.db", None)]
           (Some ∅) false {| container_map := sim_map; client := 0%nat |} st 0%nat
           (set_heap [∅] st) (APIError 500 "start failed") sim_start_fails
           eq_refl eq_refl eq_refl eq_refl).
Defined.

Lemma create_action_call_witness :
  run_action (imports := sim_imports) ("create", Some "m", "m.web", Some 0%nat)
    (Some sim_override) false sim_with_action
  = (Ok (Some (<["Id" := VStr "c0ffee"]> ∅)),
     set_trace
       [call_create_container 0%nat (VStr "ubuntu") (Some "m.web")
          {["user" := VStr "app"]}]
       (set_heap
          [ <["image" := VStr "ubuntu"]> {["user" := VStr "root"]};
            {["user" := VStr "app"]} ]
          sim_with_action)).
Proof.
  pose (mc := {| container_map := sim_map; client := 0%nat |}).
  pose (st1 := (merge_kwargs (Some sim_override) "create" (Some 0%nat)
                  sim_with_action).2).
  pose (st2 := set_heap (<[1%nat := delete "image" (deref 1 st1)]> (heap st1)) st1).
  rewrite (create_action_call (imports := sim_imports) "create" (Some "m") "m.web"
             (Some 0%nat) (Some sim_override) false mc sim_with_action 1%nat st1
             (VStr "ubuntu") st2 eq_refl eq_refl);
    [by vm_compute | by vm_compute | by vm_compute | by vm_compute].
Defined.

(** [wait] with [log] set, on an engine where the waiting returns and on
    one where it fails with the status code 404. *)
Lemma wait_calls_witness :
  (let st := sim_state (sim_world ∅) in
   let waiting := call_wait 0%nat (VStr "m.web") in
   let logs := call_push_container_logs 0%nat (VStr "m.web") in
   let '(r, st') := wait (imports := sim_imports) "web" None (Some "m") true st in
   exists calls,
     st' = set_world (world st') (set_trace (trace st ++ calls) st) /\
     (calls = [waiting] \/ calls = [waiting; logs]) /\
     (logs ∈ calls <->
      true = true /\
      exists w, eng_wait 0%nat (VStr "m.web") (world st) = (Ok tt, w)) /\
     (forall e w,
        eng_wait 0%nat (VStr "m.web") (world st) = (Raise e, w) ->
        r = Raise e /\ world st' = w) /\
     (forall w,
        eng_wait 0%nat (VStr "m.web") (world st) = (Ok tt, w) ->
        (r, world st') = eng_push_container_logs 0%nat (VStr "m.web") w)) /\
  (let gone := Raise (APIError 404 "no such container") in
   let st := listing_state second_fails gone in
   let waiting := call_wait 1%nat (VStr "db.pg") in
   let logs := call_push_container_logs 1%nat (VStr "db.pg") in
   let '(r, st') := wait (imports := sim_imports) "pg" None (Some "db") true st in
   exists calls,
     st' = set_world (world st') (set_trace (trace st ++ calls) st) /\
     (calls = [waiting] \/ calls = [waiting; logs]) /\
     (logs ∈ calls <->
      true = true /\
      exists w, eng_wait 1%nat (VStr "db.pg") (world st) = (Ok tt, w)) /\
     (forall e w,
        eng_wait 1%nat (VStr "db.pg") (world st) = (Raise e, w) ->
        r = Raise e /\ world st' = w) /\
     (forall w,
        eng_wait 1%nat (VStr "db.pg") (world st) = (Ok tt, w) ->
        (r, world st') = eng_push_container_logs 1%nat (VStr "db.pg") w)).
Proof.
  split.
  - exact (wait_calls (imports := sim_imports) "web" None (Some "m") true
             {| container_map := sim_map; client := 0%nat |}
             (sim_state (sim_world ∅)) eq_refl).
  - exact (wait_calls (imports := sim_imports) "pg" None (Some "db") true
             {| container_map := db_map; client := 1%nat |}
             (listing_state second_fails (Raise (APIError 404 "no such container")))
             eq_refl).
Defined.

(** The waiting fails: its error is raised and the logs are not pushed. *)
Example wait_failed :
  let '(r, st') :=
    wait (imports := sim_imports) "pg" None (Some "db") true
      (listing_state second_fails (Raise (APIError 404 "no such container"))) in
  r = Raise (APIError 404 "no such container") /\
  trace st' = [call_wait 1%nat (VStr "db.pg")] /\ world st' = 1%nat.
Proof. by vm_compute. Qed.


Lemma cache_keys_registered_witness :
  cache_registered
    (lifetime (imports := sim_imports) (interpreter := python3)
       [op_ensure_images (Some "m") [VStr "a"];
        op_get_image_tags (Some "x") true;
        op_refresh_names;
        op_get_image_tags (Some "m") false]
       (sim_state (sim_world ∅))).
Proof.
  exact (cache_keys_registered (engine := sim_engine) (imports := sim_imports)
           (interpreter := python3) (sim_world ∅) (SingleMap sim_map) 0%nat (sim_state (sim_world ∅)) _ eq_refl).
Defined.

Lemma default_map_last_setter_witness :
  _default_map
    (lifetime (engine := sim_engine) (imports := sim_imports)
       (interpreter := python3)
       [op_default_map_setter (Some "db"); op_refresh_names; op_get_policy;
        op_wait "web" None None true]
       (sim_state (sim_world ∅)))
  = Some "db".
Proof.
  refine (proj1 (default_map_last_setter (engine := sim_engine) (imports := sim_imports)
                   (interpreter := python3) (Some "db")
                   [op_refresh_names; op_get_policy; op_wait "web" None None true]
                   (sim_state (sim_world ∅)) _)).
  repeat constructor.
Defined.
